(** * markdown-toc: heading extraction, slugs, rendering and marker splicing

    A shallow embedding of [src/lib/utils.ts] (slugify and its helpers),
    of the [MarkedAdapter] class of the package entry point (heading
    extraction and rendering) and of [src/lib/insert.ts] (marker splicing),
    followed by the properties established about them.

    JavaScript strings are sequences of UTF-16 code units; they are
    modelled as lists of code units, each an [N].  The libraries the code
    imports (marked, gray-matter, strip-ansi, diacritics-map) and the
    Unicode tables behind [String.prototype.toLowerCase] are parameters,
    gathered in the record [Externals]. *)

From Stdlib Require Import ZArith NArith String Ascii DecimalString Sorted.
From stdpp Require Import base option list gmap.

Set Default Proof Using "Type".
Set Warnings "-register-all".

Abbreviation jsstring := (list N).

(** ** JavaScript strings and the built-ins the code relies on *)
Module JS.

(** A literal of the source, given as a Rocq string of ASCII characters. *)
Fixpoint js (s : string) : jsstring :=
  match s with
  | EmptyString => []
  | String a r => N_of_ascii a :: js r
  end.
Arguments js _%_string.

(** Line feed, [\n] in the source's literals. *)
Definition LF : N := 10%N.
Definition TAB : N := 9%N.

Definition eqc (a b : N) : bool := (a =? b)%N.

(** [WhiteSpace] and [LineTerminator] of ECMAScript: the class [\s] of
    regular expressions and what [String.prototype.trim] removes. *)
Definition is_space (c : N) : bool :=
  ((0x9 <=? c) && (c <=? 0xD) || (c =? 0x20) || (c =? 0xA0) || (c =? 0x1680)
   || (0x2000 <=? c) && (c <=? 0x200A) || (c =? 0x2028) || (c =? 0x2029)
   || (c =? 0x202F) || (c =? 0x205F) || (c =? 0x3000) || (c =? 0xFEFF))%N.

Fixpoint drop_while (p : N -> bool) (s : jsstring) : jsstring :=
  match s with
  | [] => []
  | c :: r => if p c then drop_while p r else s
  end.

Fixpoint take_while (p : N -> bool) (s : jsstring) : jsstring :=
  match s with
  | [] => []
  | c :: r => if p c then c :: take_while p r else []
  end.

(** [String.prototype.trim]. *)
Definition trimStart (s : jsstring) : jsstring := drop_while is_space s.
Definition trimEnd (s : jsstring) : jsstring := rev (drop_while is_space (rev s)).
Definition trim (s : jsstring) : jsstring := trimEnd (trimStart s).

(** [strip_prefix p s] is [Some r] when [s = p ++ r]: a literal piece of a
    regular expression matched at the head of [s]. *)
Fixpoint strip_prefix (p s : jsstring) : option jsstring :=
  match p with
  | [] => Some s
  | a :: p' =>
      match s with
      | [] => None
      | b :: s' => if eqc a b then strip_prefix p' s' else None
      end
  end.

Definition startsWith (p s : jsstring) : bool :=
  match strip_prefix p s with Some _ => true | None => false end.

(** [Array.prototype.join] on an array of strings. *)
Fixpoint join (sep : jsstring) (l : list jsstring) : jsstring :=
  match l with
  | [] => []
  | [x] => x
  | x :: r => x ++ sep ++ join sep r
  end.

(** [String.prototype.repeat]. *)
Fixpoint repeat (s : jsstring) (count : nat) : jsstring :=
  match count with
  | O => []
  | S k => s ++ repeat s k
  end.

(** Truthiness of a string: the empty string is falsy. *)
Definition truthy (s : jsstring) : bool :=
  match s with [] => false | _ => true end.

(** [a || b] on an optional string. *)
Definition or_else (a : option jsstring) (b : jsstring) : jsstring :=
  match a with
  | Some s => if truthy s then s else b
  | None => b
  end.

(** [String(n)] for a non-negative integer [n] below [10^21], where
    JavaScript writes every digit; from [10^21] on it writes an exponent,
    which is not modelled. *)
Definition decimal (n : N) : jsstring :=
  js (NilEmpty.string_of_uint (N.to_uint n)).

(** [str.replace(re, rep)] for a global regular expression without
    capture groups and a replacement without [$] patterns.  The regular
    expression is given by its matcher [m]: [m s] is [Some r] when the
    expression matches a non-empty prefix of [s] and [r] is what follows
    the match.  [skip] counts the code units of a match still to be
    passed over. *)
Fixpoint replace_from (m : jsstring -> option jsstring) (rep : jsstring)
    (skip : nat) (s : jsstring) : jsstring :=
  match s with
  | [] => []
  | c :: s' =>
      match skip with
      | S k => replace_from m rep k s'
      | O =>
          match m s with
          | Some r => rep ++ replace_from m rep (length s' - length r) s'
          | None => c :: replace_from m rep 0 s'
          end
      end
  end.

Definition replace_all (m : jsstring -> option jsstring) (rep s : jsstring) : jsstring :=
  replace_from m rep 0 s.

(** [str.split(re)] for a regular expression without capture groups that
    never matches the empty string.  [cur] holds the segment being read,
    reversed. *)
Fixpoint split_from (m : jsstring -> option jsstring)
    (skip : nat) (cur : jsstring) (s : jsstring) : list jsstring :=
  match s with
  | [] => [rev cur]
  | c :: s' =>
      match skip with
      | S k => split_from m k cur s'
      | O =>
          match m s with
          | Some r => rev cur :: split_from m (length s' - length r) [] s'
          | None => split_from m 0 (c :: cur) s'
          end
      end
  end.

Definition split_re (m : jsstring -> option jsstring) (s : jsstring) : list jsstring :=
  split_from m 0 [] s.

(** A character class, as a matcher of one code unit. *)
Definition match_class (p : N -> bool) (s : jsstring) : option jsstring :=
  match s with
  | c :: r => if p c then Some r else None
  | [] => None
  end.

(** [/\s+/]: a maximal run of white space. *)
Definition match_spaces (s : jsstring) : option jsstring :=
  match s with
  | c :: r => if is_space c then Some (drop_while is_space r) else None
  | [] => None
  end.

(** [/[ \t]+/]. *)
Definition is_blank (c : N) : bool := ((c =? 0x20) || (c =? 0x9))%N.
Definition match_blanks (s : jsstring) : option jsstring :=
  match s with
  | c :: r => if is_blank c then Some (drop_while is_blank r) else None
  | [] => None
  end.

(** [/<\/?[^>]+>/]: an HTML-like tag.  [[^>]+] is greedy and stops at the
    first [>]; when the optional slash leaves it nothing to match, the
    slash is given back. *)
Definition not_gt (c : N) : bool := negb (c =? 0x3E)%N.
Definition match_tag_body (s : jsstring) : option jsstring :=
  match take_while not_gt s, drop_while not_gt s with
  | _ :: _, _ :: r => Some r
  | _, _ => None
  end.
Definition match_tag (s : jsstring) : option jsstring :=
  match s with
  | c :: r =>
      if (c =? 0x3C)%N then
        match r with
        | d :: r' =>
            if (d =? 0x2F)%N then
              match match_tag_body r' with
              | Some x => Some x
              | None => match_tag_body r
              end
            else match_tag_body r
        | [] => match_tag_body r
        end
      else None
  | [] => None
  end.

End JS.
Export JS.

(** ** Shared types ([src/lib/utils.ts], type definitions) *)

(** The values the code stores in, and reads from, the [seen] object:
    [undefined], a number, [NaN], or an object found on the prototype chain
    (a method of [Object.prototype], or [Object.prototype] itself). *)
Inductive value := Undefined | Number (n : Z) | NaN | Inherited.

Module HeadingToken.
Record t := mk {
  content : jsstring;
  slug : jsstring;
  lvl : Z;
  i : nat;
  seen : value
}.
End HeadingToken.
Abbreviation HeadingToken := HeadingToken.t.

(** A [string | string[]] option. *)
Inductive StringOrArray :=
| OfString (s : jsstring)
| OfArray (l : list jsstring).

(** The [slugify] and [titleize] options: absent, [false], or a function. *)
Inductive Hook :=
| HookDefault
| HookFalse
| HookFn (f : jsstring -> jsstring).

Module Opt.
(** [TOCOptions], as the constructor of [MarkedAdapter] resolves them
    ([firsth1: true, maxdepth: 6, linkify: true] unless overridden).
    [firsth1] is the truthiness of the option, [linkify] and
    [stripHeadingTags] stand for [!== false]; [num] is [0] when absent,
    and a non-negative integer below [10^21] otherwise; [maxdepth] is an
    integer. *)
Record TOCOptions := mk {
  firsth1 : bool;
  maxdepth : Z;
  bullets : option StringOrArray;
  chars : option StringOrArray;
  indent : option jsstring;
  append : option jsstring;
  filter : option (jsstring -> HeadingToken -> list HeadingToken -> bool);
  slugify : Hook;
  linkify : bool;
  titleize : Hook;
  stripHeadingTags : bool;
  num : N
}.

(** The options object [{}]. *)
Definition default : TOCOptions :=
  {| firsth1 := true; maxdepth := 6; bullets := None; chars := None;
     indent := None; append := None; filter := None; slugify := HookDefault;
     linkify := true; titleize := HookDefault; stripHeadingTags := true;
     num := 0 |}.

(** The options [o] with [bullets] replaced. *)
Definition with_bullets (b : option StringOrArray) (o : TOCOptions) : TOCOptions :=
  {| firsth1 := firsth1 o; maxdepth := maxdepth o; bullets := b;
     chars := chars o; indent := indent o; append := append o;
     filter := filter o; slugify := slugify o; linkify := linkify o;
     titleize := titleize o; stripHeadingTags := stripHeadingTags o;
     num := num o |}.
End Opt.
Abbreviation TOCOptions := Opt.TOCOptions.

(** ** Tokens of the tokenizer (marked) *)

Inductive Formatting := strong | em | codespan.

(** The token shapes the adapter tells apart.  [tokens] is [None] where the
    property is absent (or falsy), [text] of [Generic] is [None] where the
    token has no string [text]. *)
Inductive Token :=
| Heading (depth : Z) (text : jsstring) (tokens : option (list Token))
| Text (text : jsstring)
| Link (text : jsstring) (tokens : option (list Token)) (href : jsstring)
| Formatted (type : Formatting) (text : jsstring) (tokens : option (list Token))
| Image
| Generic (text : option jsstring) (tokens : option (list Token)).

(** ** What the code imports *)

Inductive Error :=
| OneTOCPerFile   (* "markdown-toc only supports one Table of Contents per file." *)
| External.       (* an exception of a library the code calls *)

Inductive result (A : Type) :=
| Ok (a : A)
| Throw (e : Error).
Arguments Ok {A} a.
Arguments Throw {A} e.

(** Exceptions propagate: the error monad, with stdpp's [x ← r; k]. *)
#[global] Instance result_bind : MBind result := fun A B k r =>
  match r with
  | Ok a => k a
  | Throw e => Throw e
  end.
#[global] Instance result_ret : MRet result := fun A a => Ok a.

Record Externals := {
  (** strip-ansi *)
  stripColor : jsstring -> jsstring;
  (** [String.prototype.toLowerCase] *)
  toLowerCase : jsstring -> jsstring;
  (** diacritics-map, looked up with a one-character string *)
  diacritics : N -> option jsstring;
  (** [marked.lexer] *)
  lexer : jsstring -> result (list Token);
  (** gray-matter: the [content] and [data] of the parsed file *)
  matter_data : Type;
  matter : jsstring -> result (jsstring * matter_data);
  matter_stringify : jsstring -> matter_data -> jsstring
}.

(** ** [src/lib/utils.ts] *)
Module utils.

(** [getTitle]: [/^\[([^\]]+)\]/.exec(str)]. *)
Definition not_rbracket (c : N) : bool := negb (c =? 0x5D)%N.
Definition getTitle (str : jsstring) : jsstring :=
  match str with
  | c :: r =>
      if (c =? 0x5B)%N then
        match take_while not_rbracket r, drop_while not_rbracket r with
        | (_ :: _) as m, _ :: _ => m
        | _, _ => str
        end
      else str
  | [] => str
  end.

(** The class of the first removal, in the order of the source:
    bar, dollar, ampersand, backquote, tilde, equals, backslash, slash, at,
    plus, star, bang, question mark, the six brackets, less-than,
    greater-than, equals, dot, comma, semicolon, colon, both quotes, caret. *)
Definition is_punct (c : N) : bool :=
  existsb (N.eqb c)
    [0x7C; 0x24; 0x26; 0x60; 0x7E; 0x3D; 0x5C; 0x2F; 0x40; 0x2B; 0x2A; 0x21;
     0x3F; 0x28; 0x7B; 0x5B; 0x5D; 0x7D; 0x29; 0x3C; 0x3E; 0x3D; 0x2E; 0x2C;
     0x3B; 0x3A; 0x27; 0x22; 0x5E]%N.

(** The class of CJK punctuation of the second removal (it holds a plain
    space as well). *)
Definition is_cjk_punct (c : N) : bool :=
  existsb (N.eqb c)
    [0x3002; 0xFF1F; 0xFF01; 0xFF0C; 0x3001; 0xFF1B; 0xFF1A; 0x201C; 0x201D;
     0x3010; 0x3011; 0xFF08; 0xFF09; 0x3014; 0x3015; 0xFF3B; 0xFF3D; 0xFE43;
     0xFE44; 0x201C; 0x20; 0x201D; 0x2018; 0x2019; 0xFE41; 0xFE42; 0x2014;
     0x2026; 0xFF0D; 0xFF5E; 0x300A; 0x300B; 0x3008; 0x3009; 0x300C; 0x300D]%N.

(** [/\t/]. *)
Definition is_tab (c : N) : bool := (c =? 0x9)%N.

Section WithExternals.
Variable E : Externals.

(** [replaceDiacritics]: [str.replace(/[À-ž]/g, (ch) => diacritics[ch] || ch)]. *)
Definition replaceDiacritics (str : jsstring) : jsstring :=
  mbind (M := list) (fun ch =>
    if ((0xC0 <=? ch) && (ch <=? 0x17E))%N
    then or_else (diacritics E ch) [ch]
    else [ch]) str.

Definition slugify (str : jsstring) (options : TOCOptions) : jsstring :=
  match Opt.slugify options with
  | HookFalse => str
  | HookFn f => f str
  | HookDefault =>
      let str := getTitle str in
      let str := stripColor E str in
      let str := toLowerCase E str in
      let str := replace_all match_spaces (js "-") str in
      let str := replace_all (match_class is_tab) (js "--") str in
      let str :=
        if Opt.stripHeadingTags options
        then replace_all match_tag [] str
        else str in
      let str := replace_all (match_class is_punct) [] str in
      let str := replace_all (match_class is_cjk_punct) [] str in
      let str := replaceDiacritics str in
      if (Opt.num options =? 0)%N
      then str
      else str ++ js "-" ++ decimal (Opt.num options)
  end.
End WithExternals.

End utils.

(** ** The [MarkedAdapter] class of the entry point *)

Record TOCResult := {
  content : jsstring;
  json : list HeadingToken;
  highest : Z;
  tokens : list Token
}.

Module MarkedAdapter.

(** *** The [seen] object: [Record<string, number> = {}] *)

(** The properties an object literal inherits from [Object.prototype]. *)
Definition proto_key : jsstring := js "__proto__".
Definition inherited_keys : list jsstring :=
  [js "constructor"; js "hasOwnProperty"; js "isPrototypeOf";
   js "propertyIsEnumerable"; js "toLocaleString"; js "toString";
   js "valueOf"; js "__defineGetter__"; js "__defineSetter__";
   js "__lookupGetter__"; js "__lookupSetter__"; proto_key].

(** [seen[key]]: an own property, else what the prototype has. *)
Definition get (seen : gmap jsstring value) (key : jsstring) : value :=
  match seen !! key with
  | Some v => v
  | None => if bool_decide (key ∈ inherited_keys) then Inherited else Undefined
  end.

(** [seen[key] = v] for a primitive [v]: the setter of [__proto__]
    ignores it, any other key becomes an own property. *)
Definition set (seen : gmap jsstring value) (key : jsstring) (v : value)
    : gmap jsstring value :=
  if bool_decide (key = proto_key) then seen else <[key := v]> seen.

(** [!v]. *)
Definition falsy (v : value) : bool :=
  match v with
  | Undefined | NaN => true
  | Number n => (n =? 0)%Z
  | Inherited => false
  end.

(** The value [v++] stores: [ToNumber v + 1]. *)
Definition incremented (v : value) : value :=
  match v with
  | Number n => Number (n + 1)
  | Undefined | NaN | Inherited => NaN
  end.

(** *** The adapter's fields *)
Record state := mkState {
  seen : gmap jsstring value;
  headings : list HeadingToken
}.

(** A fresh adapter. *)
Definition init : state := {| seen := ∅; headings := [] |}.

(** [text += this.getTokenText(child)] over the children. *)
Definition concat_text (getTokenText : Token -> jsstring) (l : list Token) : jsstring :=
  fold_left (fun text child => text ++ getTokenText child) l [].

(** [getTokenText], with [getTokenTextFromLink] and
    [getTokenTextFromFormatted] in the branches that call them. *)
Fixpoint getTokenText (token : Token) : jsstring :=
  match token with
  | Heading _ text _ => text
  | Text text => text
  | Link text tokens href =>
      if truthy text then text
      else match tokens with
           | Some l => concat_text getTokenText l
           | None => href
           end
  | Formatted _ text tokens =>
      if truthy text then text
      else match tokens with
           | Some l => concat_text getTokenText l
           | None => []
           end
  | Image => []
  | Generic (Some text) _ => text
  | Generic None (Some l) => concat_text getTokenText l
  | Generic None None => []
  end.

Section WithOptions.
Variable E : Externals.
Variable options : TOCOptions.

(** [this.options.maxdepth || 6]. *)
Definition maxdepth_or_6 : Z :=
  if (Opt.maxdepth options =? 0)%Z then 6%Z else Opt.maxdepth options.

Fixpoint processHeadingToken (token : Token) (depth : Z) (st : state) : state :=
  if (depth >? maxdepth_or_6)%Z then st
  else match token with
  | Heading headingDepth _ tokens =>
      let text := getTokenText token in
      let slug := utils.slugify E text options in
      let seen' :=
        if falsy (get (seen st) text)
        then set (seen st) text (Number 0)
        else set (seen st) text (incremented (get (seen st) text)) in
      let heading :=
        {| HeadingToken.content := text;
           HeadingToken.slug := slug;
           HeadingToken.lvl := headingDepth;
           HeadingToken.i := length (headings st);
           HeadingToken.seen := get seen' text |} in
      let st' := {| seen := seen'; headings := headings st ++ [heading] |} in
      match tokens with
      | Some l =>
          fold_left (fun st childToken =>
                       processHeadingToken childToken headingDepth st) l st'
      | None => st'
      end
  | _ => st
  end.

(** [extractHeadings]: the default of [depth] is [0]. *)
Definition extractHeadings (tokens : list Token) (st : state) : state :=
  fold_left (fun st token =>
               match token with
               | Heading _ _ _ => processHeadingToken token 0 st
               | _ => st
               end) tokens st.

(** [processHeadings]: [slice(1)], then the filter, which is handed the
    list as it is before filtering. *)
Definition processHeadings (st : state) : state :=
  let hs := if Opt.firsth1 options then headings st else drop 1 (headings st) in
  let hs :=
    match Opt.filter options with
    | Some f => List.filter (fun heading => f (HeadingToken.content heading) heading hs) hs
    | None => hs
    end in
  {| seen := seen st; headings := hs |}.

(** [getHighestLevel]. *)
Definition getHighestLevel (st : state) : Z :=
  match map HeadingToken.lvl (headings st) with
  | [] => 0%Z
  | l :: ls => fold_left Z.min ls l
  end.

(** [titleize]. *)
Definition titleize (str : jsstring) : jsstring :=
  match Opt.titleize options with
  | HookFn f => f str
  | _ =>
      let result :=
        if Opt.stripHeadingTags options
        then replace_all match_tag [] str
        else str in
      trim (replace_all match_blanks (js " ") result)
  end.

(** The glyphs: [Array.isArray(bullets) ? bullets : chars || ["-", "*", "+"]]. *)
Definition select_bullets : StringOrArray :=
  match Opt.bullets options with
  | Some (OfArray l) => OfArray l
  | _ =>
      match Opt.chars options with
      | Some (OfArray l) => OfArray l
      | Some (OfString ((_ :: _) as s)) => OfString s
      | _ => OfArray [js "-"; js "*"; js "+"]
      end
  end.

(** [bullets.length] and [bullets[index]]; the latter is [undefined]
    out of range. *)
Definition glyph_count (b : StringOrArray) : Z :=
  match b with
  | OfString s => Z.of_nat (length s)
  | OfArray l => Z.of_nat (length l)
  end.
Definition glyph_at (b : StringOrArray) (index : Z) : option jsstring :=
  if (index <? 0)%Z then None
  else match b with
       | OfString s => (fun c => [c]) <$> s !! Z.to_nat index
       | OfArray l => l !! Z.to_nat index
       end.

(** One line of [generateTOCContent], for a heading within [maxdepth]. *)
Definition render_line (st : state) (heading : HeadingToken) : jsstring :=
  let bullets := select_bullets in
  let indent := or_else (Opt.indent options) (js "  ") in
  let bulletIndex := Z.min (HeadingToken.lvl heading - 1) (glyph_count bullets - 1) in
  let bullet := or_else (glyph_at bullets bulletIndex) (js "-") in
  let highestLevel := getHighestLevel st in
  let indentLevel := Z.max 0 (HeadingToken.lvl heading - highestLevel) in
  let indentation := repeat indent (Z.to_nat indentLevel) in
  if Opt.linkify options then
    let linkText :=
      match Opt.titleize options with
      | HookFalse => HeadingToken.content heading
      | _ => titleize (HeadingToken.content heading)
      end in
    indentation ++ bullet ++ js " [" ++ linkText ++ js "](#"
      ++ HeadingToken.slug heading ++ js ")"
  else
    indentation ++ bullet ++ js " " ++ HeadingToken.content heading.

Definition generateTOCContent (st : state) : jsstring :=
  let lines :=
    mbind (M := list) (fun heading =>
      if (HeadingToken.lvl heading >? maxdepth_or_6)%Z then []
      else [render_line st heading]) (headings st) in
  let lines :=
    match Opt.append options with
    | Some a => if truthy a then lines ++ [a] else lines
    | None => lines
    end in
  join [LF] lines.

Definition generateJSONOutput (st : state) : list HeadingToken :=
  map (fun heading =>
         {| HeadingToken.content := HeadingToken.content heading;
            HeadingToken.slug := HeadingToken.slug heading;
            HeadingToken.lvl := HeadingToken.lvl heading;
            HeadingToken.i := HeadingToken.i heading;
            HeadingToken.seen := HeadingToken.seen heading |}) (headings st).

(** [parse], from the tokens the lexer returned. *)
Definition parse_tokens (tokens : list Token) : TOCResult :=
  let st := extractHeadings tokens init in
  let st := processHeadings st in
  {| content := generateTOCContent st;
     json := generateJSONOutput st;
     highest := getHighestLevel st;
     tokens := tokens |}.

Definition parse (content : jsstring) : result TOCResult :=
  tokens ← lexer E content;
  Ok (parse_tokens tokens).

End WithOptions.

End MarkedAdapter.

(** [toc(str, options)]: a new adapter for every call. *)
Definition toc (E : Externals) (str : jsstring) (options : TOCOptions) : result TOCResult :=
  MarkedAdapter.parse E options str.

(** ** [src/lib/insert.ts] *)

Module InsertOpt.
(** The options [insert] reads besides those it hands on to [toc].  A
    custom [regex] is given by what [str.split(regex)] returns, for a
    pattern without capture groups: the sections are then strings, and
    [split] does not throw.  [toc] is a table of contents supplied by the
    caller. *)
Record InsertOptions := mk {
  base : TOCOptions;
  regex : option (jsstring -> list jsstring);
  open : option jsstring;
  close : option jsstring;
  toc : option jsstring
}.

Definition default : InsertOptions :=
  {| base := Opt.default; regex := None; open := None; close := None; toc := None |}.
End InsertOpt.
Abbreviation InsertOptions := InsertOpt.InsertOptions.

Module Insert.

(** The default marker pattern, [/(?:<!-- toc(?:\s*stop)? -->)/g]: the
    optional group is tried first, and given up when what follows it
    does not match. *)
Definition match_marker (s : jsstring) : option jsstring :=
  r ← strip_prefix (js "<!-- toc") s;
  match strip_prefix (js "stop") (drop_while is_space r)
          ≫= strip_prefix (js " -->") with
  | Some x => Some x
  | None => strip_prefix (js " -->") r
  end.

Definition trim (str : jsstring) : jsstring := JS.trim str.

(** [split(str, re)]: [str.split(re).map(trim)]. *)
Definition split (str : jsstring) (re : jsstring -> list jsstring) : list jsstring :=
  map trim (re str).

(** [(/\n+$/.exec(str) || [""])[0]]: the line feeds the string ends with. *)
Definition is_lf (c : N) : bool := (c =? LF)%N.
Definition trailing_newlines (str : jsstring) : jsstring :=
  rev (take_while is_lf (rev str)).

(** [Array.prototype.splice], for a start within the array. *)
Definition splice (l : list jsstring) (start deleteCount : nat)
    (items : list jsstring) : list jsstring :=
  take start l ++ items ++ drop (start + deleteCount) l.

Definition default_open : jsstring := js "<!-- toc -->" ++ [LF; LF].
Definition default_close : jsstring := js "<!-- tocstop -->".

Section WithExternals.
Variable E : Externals.

Definition insert (str : jsstring) (options : InsertOptions) : result jsstring :=
  let regex := default (split_re match_marker) (InsertOpt.regex options) in
  let open := default default_open (InsertOpt.open options) in
  let close := default default_close (InsertOpt.close options) in
  let newlines := trailing_newlines str in
  obj ← (if startsWith (js "---") str
         then o ← matter E str; Ok (Some o)
         else Ok None);
  let str := match obj with Some o => o.1 | None => str end in
  let sections := split str regex in
  if 3 <? length sections then Throw OneTOCPerFile
  else
    let last := default [] (last sections) in
    sections ←
      (if length sections =? 3 then
         t ← (if truthy (default [] (InsertOpt.toc options))
              then Ok (default [] (InsertOpt.toc options))
              else r ← toc E last (InsertOpt.base options); Ok (content r));
         Ok (splice (splice sections 1 1 [open ++ t]) 2 0 [close])
       else Ok sections);
    sections ←
      (if length sections =? 2 then
         r ← toc E last (InsertOpt.base options);
         Ok (splice sections 1 0 [open ++ content r ++ [LF; LF] ++ close])
       else Ok sections);
    let resultString := join [LF; LF] sections ++ newlines in
    match obj with
    | Some o => Ok (matter_stringify E resultString o.2)
    | None => Ok resultString
    end.
End WithExternals.

End Insert.

(** ** What is assumed of the built-ins *)

(** [toLowerCase] on a code unit of ASCII. *)
Definition ascii_lower (c : N) : N :=
  if ((0x41 <=? c) && (c <=? 0x5A))%N then (c + 32)%N else c.

Definition is_ascii (c : N) : bool := (c <? 0x80)%N.

(** Every escape sequence strip-ansi removes starts with ESC or CSI. *)
Definition is_escape (c : N) : bool := ((c =? 0x1B) || (c =? 0x9B))%N.

Record conforming (E : Externals) : Prop := {
  toLowerCase_ascii :
    forall s, forallb is_ascii s = true -> toLowerCase E s = map ascii_lower s;
  stripColor_plain :
    forall s, existsb is_escape s = false -> stripColor E s = s
}.

(** ** An instance of the parameters, for the examples *)
Module Reference.

(** Removal of the colour sequences [ESC [ digits-and-semicolons letter]. *)
Definition is_param (c : N) : bool :=
  ((0x30 <=? c) && (c <=? 0x39) || (c =? 0x3B))%N.
Definition is_letter (c : N) : bool :=
  ((0x41 <=? c) && (c <=? 0x5A) || (0x61 <=? c) && (c <=? 0x7A))%N.
Definition match_colour (s : jsstring) : option jsstring :=
  match s with
  | e :: b :: r =>
      if ((e =? 0x1B) && (b =? 0x5B))%N then
        match drop_while is_param r with
        | c :: r' => if is_letter c then Some r' else None
        | [] => None
        end
      else None
  | _ => None
  end.

(** Lines of a document. *)
Fixpoint lines_from (cur : jsstring) (s : jsstring) : list jsstring :=
  match s with
  | [] => [rev cur]
  | c :: r => if (c =? LF)%N then rev cur :: lines_from [] r
              else lines_from (c :: cur) r
  end.

(** A tokenizer for documents made of ATX headings and paragraphs of
    plain text, one per line. *)
Definition is_hash (c : N) : bool := (c =? 0x23)%N.
Definition lex_line (line : jsstring) : list Token :=
  let hashes := length (take_while is_hash line) in
  match drop_while is_hash line with
  | c :: r =>
      if (c =? 0x20)%N && bool_decide (1 <= hashes <= 6)
      then [Heading (Z.of_nat hashes) (trim r) (Some [Text (trim r)])]
      else [Generic (Some line) (Some [Text line])]
  | [] => []
  end.
Definition atx_lexer (s : jsstring) : list Token :=
  mbind (M := list) lex_line (lines_from [] s).

(** Front matter kept as the lines between the two [---] fences. *)
Fixpoint fence (acc : list jsstring) (ls : list jsstring)
    : result (jsstring * list jsstring) :=
  match ls with
  | [] => Throw External
  | l :: r => if bool_decide (l = js "---")
              then Ok (join [LF] r, rev acc)
              else fence (l :: acc) r
  end.
Definition split_matter (s : jsstring) : result (jsstring * list jsstring) :=
  match lines_from [] s with
  | _ :: ls => fence [] ls
  | [] => Throw External
  end.
Definition join_matter (s : jsstring) (data : list jsstring) : jsstring :=
  join [LF] (js "---" :: data ++ [js "---"; s]).

Definition externals : Externals :=
  {| stripColor := replace_all match_colour [];
     toLowerCase := map ascii_lower;
     diacritics := fun ch => if (ch =? 0xE9)%N then Some (js "e") else None;
     lexer := fun s => Ok (atx_lexer s);
     matter_data := list jsstring;
     matter := split_matter;
     matter_stringify := join_matter |}.

End Reference.

(** The tokens of the document [## A], line feed, [## A], line feed. *)
Definition twice_A : list Token :=
  [Heading 2 (js "A") (Some [Text (js "A")]);
   Heading 2 (js "A") (Some [Text (js "A")])].

(** What [slugify] computes, with the options [{}], on a string of ASCII
    without escape sequences. *)
Definition ascii_slug (E : Externals) (str : jsstring) : jsstring :=
  let str := map ascii_lower (utils.getTitle str) in
  let str := replace_all match_spaces (js "-") str in
  let str := replace_all (match_class utils.is_tab) (js "--") str in
  let str := replace_all match_tag [] str in
  let str := replace_all (match_class utils.is_punct) [] str in
  let str := replace_all (match_class utils.is_cjk_punct) [] str in
  utils.replaceDiacritics E str.

(** The tokens of the document [### A], line feed. *)
Definition level_three : list Token :=
  [Heading 3 (js "A") (Some [Text (js "A")])].

(** The options [{maxdepth: 2}]. *)
Definition maxdepth_two : TOCOptions :=
  {| Opt.firsth1 := true; Opt.maxdepth := 2; Opt.bullets := None;
     Opt.chars := None; Opt.indent := None; Opt.append := None;
     Opt.filter := None; Opt.slugify := HookDefault; Opt.linkify := true;
     Opt.titleize := HookDefault; Opt.stripHeadingTags := true; Opt.num := 0 |}.



(** The tokens of the document [# T], line feed, [## A], line feed, and the
    options [{firsth1: false}]. *)
Definition title_and_section : list Token :=
  [Heading 1 (js "T") (Some [Text (js "T")]);
   Heading 2 (js "A") (Some [Text (js "A")])].

(** The children of a token, where it has some. *)
Definition all_children (P : Token -> Prop) (o : option (list Token)) : Prop :=
  match o with
  | Some l => Forall P l
  | None => True
  end.

(** The strings the default marker pattern matches: the opening marker,
    and [<!-- toc], a run of white space, [stop -->]. *)
Definition marker_variant (w : jsstring) : jsstring :=
  js "<!-- toc" ++ w ++ js "stop -->".
Definition open_marker : jsstring := js "<!-- toc -->".
Inductive is_marker : jsstring -> Prop :=
| is_marker_open : is_marker open_marker
| is_marker_stop w : forallb is_space w = true -> is_marker (marker_variant w).

(** A match of [m] is not empty and ends inside the string. *)
Definition proper_matcher (m : jsstring -> option jsstring) : Prop :=
  forall s r, m s = Some r -> exists c w, s = c :: w ++ r.

(** No match of the marker pattern starts anywhere in [s]. *)
Definition marker_free (s : jsstring) : Prop :=
  forall a b, s = a ++ b -> Insert.match_marker b = None.

(** How a string splits on the marker pattern: segments without a match,
    with a marker between two of them. *)
Inductive Segments : jsstring -> list jsstring -> Prop :=
| Segments_last s : marker_free s -> Segments s [s]
| Segments_cons seg M rest segs :
    marker_free seg -> is_marker M -> Segments rest segs ->
    Segments (seg ++ M ++ rest) (seg :: segs).

(** The body [insert] splits, and its sections. *)
Definition body_of (E : Externals) (str : jsstring) : result jsstring :=
  if startsWith (js "---") str
  then o ← matter E str; Ok o.1
  else Ok str.
Definition sections_of (E : Externals) (str : jsstring) (options : InsertOptions)
    : result (list jsstring) :=
  b ← body_of E str;
  Ok (Insert.split b (default (split_re Insert.match_marker) (InsertOpt.regex options))).

(** [options.toc || toc(last, options).content]. *)
Definition supplied_or_rendered (E : Externals) (last : jsstring)
    (options : InsertOptions) : result jsstring :=
  if truthy (default [] (InsertOpt.toc options))
  then Ok (default [] (InsertOpt.toc options))
  else r ← toc E last (InsertOpt.base options); Ok (content r).

(** A document with a table of contents and two headings after it, its
    three sections, and the table rendered from the last of them. *)
Definition doc_with_toc : jsstring :=
  js "# Title" ++ [LF] ++ js "<!-- toc -->" ++ [LF] ++ js "- old" ++ [LF]
  ++ js "<!-- tocstop -->" ++ [LF] ++ js "## A" ++ [LF] ++ js "## B" ++ [LF].
Definition doc_with_toc_pre : jsstring := js "# Title".
Definition doc_with_toc_old : jsstring := js "- old".
Definition doc_with_toc_post : jsstring := js "## A" ++ [LF] ++ js "## B".
Definition doc_with_toc_table : jsstring :=
  js "* [A](#a)" ++ [LF] ++ js "* [B](#b)".

(** A document that ends with its table of contents, and what [insert]
    makes of it. *)
Definition doc_ending_with_toc : jsstring :=
  js "# Title" ++ [LF] ++ js "<!-- toc -->" ++ [LF] ++ js "- old" ++ [LF]
  ++ js "<!-- tocstop -->" ++ [LF].
Definition doc_ending_with_toc_inserted : jsstring :=
  js "# Title" ++ [LF; LF] ++ js "<!-- toc -->" ++ [LF; LF] ++ [LF; LF]
  ++ js "<!-- tocstop -->" ++ [LF; LF] ++ [LF].

(** The values a record's [seen] can hold: the count [0], [NaN] or an
    inherited object, never a count above [0]. *)
Definition never_counted (v : value) : Prop :=
  v = Number 0 \/ v = NaN \/ v = Inherited.

(** What holds of the adapter's fields all along the extraction. *)
Definition uncounted (st : MarkedAdapter.state) : Prop :=
  MarkedAdapter.seen st !! MarkedAdapter.proto_key = None /\
  (forall k v, MarkedAdapter.seen st !! k = Some v -> v = Number 0 \/ v = NaN) /\
  Forall (fun h => never_counted (HeadingToken.seen h)) (MarkedAdapter.headings st).

(** ** Further functions of [src/lib/utils.ts] *)

(** [createMarkdownLink], exposed as [utils.mdlink]. *)
Definition createMarkdownLink (text href : jsstring) : jsstring :=
  js "[" ++ text ++ js "](" ++ href ++ js ")".

(** Truthiness of a [string | string[]] option: an array is truthy, a
    string when it is not empty. *)
Definition truthy_glyphs (o : option StringOrArray) : bool :=
  match o with
  | Some (OfArray _) => true
  | Some (OfString s) => truthy s
  | None => false
  end.

(** [createListItem], exposed as [utils.li].  [level] is an integer;
    [indent.repeat(level)] throws for a negative one, which is [None]. *)
Definition createListItem (opts : TOCOptions) (level : Z) (content : jsstring)
    : option jsstring :=
  let indent := or_else (Opt.indent opts) (js "  ") in
  let bullets :=
    if truthy_glyphs (Opt.bullets opts) then default (OfArray []) (Opt.bullets opts)
    else if truthy_glyphs (Opt.chars opts) then default (OfArray []) (Opt.chars opts)
    else OfArray [js "-"; js "*"; js "+"] in
  let bullet :=
    or_else (MarkedAdapter.glyph_at bullets
               (Z.min level (MarkedAdapter.glyph_count bullets - 1))) (js "-") in
  if (level <? 0)%Z then None
  else Some (repeat indent (Z.to_nat level) ++ bullet ++ js " " ++ content).

(** ** Notions used in the further properties *)

Definition is_upper (c : N) : bool := ((0x41 <=? c) && (c <=? 0x5A))%N.

(** The code units a default slug of ASCII text is made of. *)
Definition slug_char (c : N) : bool :=
  is_ascii c && negb (is_escape c) && negb (is_space c)
  && negb (utils.is_punct c) && negb (is_upper c).

(** No two spaces next to each other. *)
Fixpoint single_spaced (s : jsstring) : bool :=
  match s with
  | a :: r =>
      match r with
      | b :: _ => negb ((a =? 0x20) && (b =? 0x20))%N && single_spaced r
      | [] => true
      end
  | [] => true
  end.

(** A token that is not a heading. *)
Definition not_heading (t : Token) : Prop :=
  match t with
  | Heading _ _ _ => False
  | _ => True
  end.

(** The list [processHeadings] hands to the filter: the extracted
    headings, without the first one when [firsth1] is off. *)
Definition truncated (E : Externals) (options : TOCOptions) (toks : list Token)
    : list HeadingToken :=
  let extracted :=
    MarkedAdapter.headings
      (MarkedAdapter.extractHeadings E options toks MarkedAdapter.init) in
  if Opt.firsth1 options then extracted else drop 1 extracted.

(** What [insert] returns for the sections [pre] and [post], the table of
    contents [c] and the line feeds [nl], with the default markers. *)
Definition spliced (pre c post nl : jsstring) : jsstring :=
  join [LF; LF] [pre; Insert.default_open ++ c; Insert.default_close; post] ++ nl.

(** The headings of a document, as the tokenizer hands them over: the text
    and the depth of each heading token, in order. *)
Definition document_headings (toks : list Token) : list (jsstring * Z) :=
  mbind (M := list) (fun t =>
    match t with
    | Heading depth text _ => [(text, depth)]
    | _ => []
    end) toks.

(** A token whose children, if it is a heading, are not headings: the
    shape of the tokens of marked, where a heading holds inline tokens. *)
Definition inline_children (t : Token) : Prop :=
  match t with
  | Heading _ _ (Some l) => Forall not_heading l
  | _ => True
  end.

(** The options [o] without the [toc] option. *)
Definition without_toc (o : InsertOptions) : InsertOptions :=
  {| InsertOpt.base := InsertOpt.base o; InsertOpt.regex := InsertOpt.regex o;
     InsertOpt.open := InsertOpt.open o; InsertOpt.close := InsertOpt.close o;
     InsertOpt.toc := None |}.

(** A document with the opening marker only, and its two sections. *)
Definition doc_with_opening : jsstring :=
  js "# Title" ++ [LF] ++ js "<!-- toc -->" ++ [LF] ++ js "## A" ++ [LF]
  ++ js "## B" ++ [LF].

(** A document with front matter, and the same without it. *)
Definition doc_with_matter : jsstring :=
  js "---" ++ [LF] ++ js "title: x" ++ [LF] ++ js "---" ++ [LF]
  ++ js "<!-- toc -->" ++ [LF] ++ js "## A" ++ [LF].
Definition doc_with_matter_content : jsstring :=
  js "<!-- toc -->" ++ [LF] ++ js "## A" ++ [LF].

(** What holds of the adapter's fields for the names an object literal
    does not inherit: their count is [0], in the [seen] object and in the
    records. *)
Definition own_counts (st : MarkedAdapter.state) : Prop :=
  MarkedAdapter.seen st !! MarkedAdapter.proto_key = None /\
  (forall k v, MarkedAdapter.seen st !! k = Some v ->
     v = Number 0 \/ (v = NaN /\ k ∈ MarkedAdapter.inherited_keys)) /\
  Forall (fun h => HeadingToken.content h ∉ MarkedAdapter.inherited_keys ->
                   HeadingToken.seen h = Number 0) (MarkedAdapter.headings st).

(** Options for the examples: a filter that keeps the headings of level 2,
    a table of contents supplied by the caller, and two glyphs. *)
Definition only_level_two : TOCOptions :=
  {| Opt.firsth1 := true; Opt.maxdepth := 6; Opt.bullets := None;
     Opt.chars := None; Opt.indent := None; Opt.append := None;
     Opt.filter := Some (fun _ h _ => (HeadingToken.lvl h =? 2)%Z);
     Opt.slugify := HookDefault; Opt.linkify := true;
     Opt.titleize := HookDefault; Opt.stripHeadingTags := true; Opt.num := 0 |}.
Definition with_supplied_toc : InsertOptions :=
  {| InsertOpt.base := Opt.default; InsertOpt.regex := None;
     InsertOpt.open := None; InsertOpt.close := None;
     InsertOpt.toc := Some (js "- [A](#a)") |}.
Definition two_glyphs : TOCOptions :=
  Opt.with_bullets (Some (OfArray [js "-"; js "*"])) Opt.default.

(** An image token. *)
Definition is_image (t : Token) : bool :=
  match t with
  | Image => true
  | _ => false
  end.





(** The parameters of the examples with a tokenizer that fails. *)
Definition failing_lexer : Externals :=
  {| stripColor := stripColor Reference.externals;
     toLowerCase := toLowerCase Reference.externals;
     diacritics := diacritics Reference.externals;
     lexer := fun _ => Throw External;
     matter_data := matter_data Reference.externals;
     matter := matter Reference.externals;
     matter_stringify := matter_stringify Reference.externals |}.

(** A document whose front matter is not closed, and a document with
    three markers, the last one written with white space before [stop]. *)
Definition doc_with_open_matter : jsstring :=
  js "---" ++ [LF] ++ js "title: x" ++ [LF].
Definition doc_with_three_markers : jsstring :=
  js "<!-- toc -->a<!-- tocstop -->b" ++ marker_variant [0x20%N; TAB; LF] ++ js "c".

(** * Properties *)

(** ** Strings *)

Lemma strip_prefix_app p r : strip_prefix p (p ++ r) = Some r.
Proof.
  induction p as [|a p IH]; simpl; [done|].
  unfold eqc. by rewrite N.eqb_refl.
Qed.

Lemma strip_prefix_Some p s r : strip_prefix p s = Some r -> s = p ++ r.
Proof.
  revert s. induction p as [|a p IH]; intros s; simpl; [congruence|].
  destruct s as [|b s]; [done|]. unfold eqc.
  destruct (N.eqb_spec a b) as [->|]; [|done].
  intros H. by rewrite (IH _ H).
Qed.

Lemma take_drop_while p s : take_while p s ++ drop_while p s = s.
Proof.
  induction s as [|c s IH]; simpl; [done|].
  destruct (p c); simpl; [by rewrite IH | done].
Qed.

Lemma take_while_all p s : forallb p (take_while p s) = true.
Proof.
  induction s as [|c s IH]; simpl; [done|].
  destruct (p c) eqn:Hc; simpl; [by rewrite Hc | done].
Qed.

Lemma drop_while_app_stop p w c x :
  forallb p w = true -> p c = false -> drop_while p (w ++ c :: x) = c :: x.
Proof.
  intros Hw Hc. induction w as [|a w IH]; simpl in *; [by rewrite Hc|].
  apply andb_prop in Hw as [-> Hw]. by apply IH.
Qed.

(** ** The instance of the examples meets the assumptions *)

Lemma replace_from_no_match m rep s :
  (forall a b, s = a ++ b -> m b = None) ->
  replace_from m rep 0 s = s.
Proof.
  induction s as [|c s IH]; intros Hm; [done|].
  simpl. rewrite (Hm [] (c :: s) eq_refl). f_equal. apply IH.
  intros a b ->. by apply (Hm (c :: a)).
Qed.

Lemma match_colour_escape s :
  existsb is_escape s = false -> Reference.match_colour s = None.
Proof.
  destruct s as [|e [|b r]]; try done. simpl.
  intros [He _]%orb_false_elim. unfold is_escape in He.
  apply orb_false_elim in He as [-> _]. done.
Qed.

Lemma existsb_suffix (p : N -> bool) (a b : jsstring) :
  existsb p (a ++ b) = false -> existsb p b = false.
Proof. rewrite existsb_app. by intros [_ ?]%orb_false_elim. Qed.

Lemma reference_conforming : conforming Reference.externals.
Proof.
  split; simpl.
  - done.
  - intros s Hs. apply replace_from_no_match. intros a b ->.
    apply match_colour_escape. by apply existsb_suffix in Hs.
Qed.

(** ** Slugs *)

Section Slugify.
Variable E : Externals.
Hypothesis HE : conforming E.

Lemma slugify_ascii str :
  forallb is_ascii (utils.getTitle str) = true ->
  existsb is_escape (utils.getTitle str) = false ->
  utils.slugify E str Opt.default = ascii_slug E str.
Proof using HE.
  intros Ha He. unfold utils.slugify, ascii_slug. simpl.
  rewrite (stripColor_plain E HE) by done.
  by rewrite (toLowerCase_ascii E HE).
Qed.
End Slugify.

(** *** Replacements *)

Section Replacing.
Variable m : jsstring -> option jsstring.
Variable rep : jsstring.

Lemma replace_from_skip k s :
  replace_from m rep k s = replace_from m rep 0 (drop k s).
Proof.
  revert k. induction s as [|c s IH]; intros [|k]; simpl; try done.
Qed.

Lemma replace_all_match s r :
  proper_matcher m -> m s = Some r ->
  replace_all m rep s = rep ++ replace_all m rep r.
Proof.
  intros Hp Hm. destruct (Hp _ _ Hm) as (c & w & ->).
  unfold replace_all. simpl. rewrite Hm. f_equal.
  rewrite replace_from_skip, length_app.
  replace (length w + length r - length r) with (length w) by lia.
  by rewrite drop_app_length.
Qed.

Lemma replace_all_nomatch c s :
  m (c :: s) = None -> replace_all m rep (c :: s) = c :: replace_all m rep s.
Proof. intros Hm. unfold replace_all. simpl. by rewrite Hm. Qed.
End Replacing.

Lemma match_spaces_proper : proper_matcher match_spaces.
Proof.
  intros [|c s] r; simpl; [done|].
  destruct (is_space c); [|done]. intros [= <-].
  exists c, (take_while is_space s). by rewrite take_drop_while.
Qed.

(** After the replacement of white space no white space is left. *)
Lemma replace_spaces_no_space s :
  existsb is_space (replace_all match_spaces (js "-") s) = false.
Proof.
  remember (length s) as n eqn:Hn. revert s Hn.
  induction n as [n IH] using lt_wf_ind. intros [|c s] Hn; [done|].
  destruct (match_spaces (c :: s)) as [r|] eqn:Hm.
  - rewrite (replace_all_match _ _ _ r) by (done || apply match_spaces_proper).
    destruct (match_spaces_proper _ _ Hm) as (c' & w & Heq).
    simpl. apply (IH (length r)); [|done].
    rewrite Hn, Heq. simpl. rewrite length_app. lia.
  - rewrite replace_all_nomatch by done. simpl.
    assert (is_space c = false) as ->.
    { simpl in Hm. by destruct (is_space c). }
    simpl. apply (IH (length s)); [|done]. rewrite Hn. simpl. lia.
Qed.

(** The replacement of tabs, which follows, finds none. *)
Lemma tab_replacement_unreachable s :
  replace_all (match_class utils.is_tab) (js "--")
    (replace_all match_spaces (js "-") s)
  = replace_all match_spaces (js "-") s.
Proof.
  pose proof (replace_spaces_no_space s) as H.
  apply replace_from_no_match. intros a [|c b] Hab; [done|].
  rewrite Hab in H. apply existsb_suffix in H. simpl in H.
  apply orb_false_elim in H as [Hc _].
  simpl. unfold utils.is_tab.
  destruct (N.eqb_spec c 9) as [->|]; done.
Qed.

(** C6, as amended: with the options [{}], [slugify] turns
    [Hello World!] into [hello-world] and [C++ & Go] into [c--go]: the two
    spaces become hyphens before [+], [+] and [&] are removed, and the
    hyphens left next to each other are kept. *)
Theorem slugify_examples E :
  conforming E ->
  utils.slugify E (js "Hello World!") Opt.default = js "hello-world" /\
  utils.slugify E (js "C++ & Go") Opt.default = js "c--go".
Proof.
  intros HE. split; rewrite slugify_ascii by done; vm_compute; reflexivity.
Qed.

Lemma slugify_examples_witness :
  conforming Reference.externals /\
  utils.slugify Reference.externals (js "Hello World!") Opt.default = js "hello-world" /\
  utils.slugify Reference.externals (js "C++ & Go") Opt.default = js "c--go".
Proof.
  split; [exact reference_conforming|].
  exact (slugify_examples Reference.externals reference_conforming).
Defined.

(** C6 as stated fails: [C++ & Go] does not become [c-go]. *)
Lemma slugify_cpp_go_not_c_go :
  ~ (forall E, conforming E ->
       utils.slugify E (js "Hello World!") Opt.default = js "hello-world" /\
       utils.slugify E (js "C++ & Go") Opt.default = js "c-go").
Proof.
  intros H. destruct (H _ reference_conforming) as [_ H2].
  vm_compute in H2. discriminate H2.
Qed.

(** C5, at the input [a], tab, [b]: the tab is white space, so the first
    replacement turns it into one hyphen and the second finds no tab. *)
Theorem slugify_tab_one_hyphen E :
  conforming E ->
  utils.slugify E (js "a" ++ [TAB] ++ js "b") Opt.default = js "a-b".
Proof.
  intros HE. rewrite slugify_ascii by done. vm_compute. reflexivity.
Qed.

Lemma slugify_tab_one_hyphen_witness :
  conforming Reference.externals /\
  utils.slugify Reference.externals (js "a" ++ [TAB] ++ js "b") Opt.default = js "a-b".
Proof.
  split; [exact reference_conforming|].
  exact (slugify_tab_one_hyphen Reference.externals reference_conforming).
Defined.

(** ** Extraction *)

(** Induction on tokens, with the property at hand for the children. *)
Lemma Token_children_ind (P : Token -> Prop) :
  (forall depth text tokens, all_children P tokens -> P (Heading depth text tokens)) ->
  (forall text, P (Text text)) ->
  (forall text tokens href, all_children P tokens -> P (Link text tokens href)) ->
  (forall type text tokens, all_children P tokens -> P (Formatted type text tokens)) ->
  P Image ->
  (forall text tokens, all_children P tokens -> P (Generic text tokens)) ->
  forall token, P token.
Proof.
  intros HH HT HL HF HI HG.
  fix IH 1.
  intros [depth text tokens|text|text tokens href|type text tokens| |text tokens].
  - apply HH. destruct tokens as [l|]; simpl; [|exact I].
    induction l as [|t l IHl]; constructor; [apply IH | exact IHl].
  - apply HT.
  - apply HL. destruct tokens as [l|]; simpl; [|exact I].
    induction l as [|t l IHl]; constructor; [apply IH | exact IHl].
  - apply HF. destruct tokens as [l|]; simpl; [|exact I].
    induction l as [|t l IHl]; constructor; [apply IH | exact IHl].
  - apply HI.
  - apply HG. destruct tokens as [l|]; simpl; [|exact I].
    induction l as [|t l IHl]; constructor; [apply IH | exact IHl].
Qed.

Section Extraction.
Variable E : Externals.
Variable options : TOCOptions.

Local Abbreviation process := (MarkedAdapter.processHeadingToken E options).
Local Abbreviation headings := MarkedAdapter.headings.

Lemma generateJSONOutput_headings st :
  MarkedAdapter.generateJSONOutput st = headings st.
Proof.
  unfold MarkedAdapter.generateJSONOutput.
  rewrite <- (map_id (headings st)) at 2.
  apply map_ext. by intros [].
Qed.


Lemma fold_children_invariant (I : MarkedAdapter.state -> Prop) depth l :
  Forall (fun t => forall d st, I st -> I (process t d st)) l ->
  forall st, I st ->
    I (fold_left (fun st childToken => process childToken depth st) l st).
Proof.
  induction 1 as [|t l Ht _ IH]; intros st Hst; simpl; [done|].
  apply IH. by apply Ht.
Qed.


End Extraction.




(** *** The [seen] object *)

Section Seen.
Variable E : Externals.
Variable options : TOCOptions.

Lemma track_uncounted seen text :
  seen !! MarkedAdapter.proto_key = None ->
  (forall k v, seen !! k = Some v -> v = Number 0 \/ v = NaN) ->
  let seen' :=
    if MarkedAdapter.falsy (MarkedAdapter.get seen text)
    then MarkedAdapter.set seen text (Number 0)
    else MarkedAdapter.set seen text
           (MarkedAdapter.incremented (MarkedAdapter.get seen text)) in
  seen' !! MarkedAdapter.proto_key = None /\
  (forall k v, seen' !! k = Some v -> v = Number 0 \/ v = NaN) /\
  never_counted (MarkedAdapter.get seen' text).
Proof.
  intros Hproto Hvals. simpl.
  assert (Hset : forall v, v = Number 0 \/ v = NaN ->
    MarkedAdapter.set seen text v !! MarkedAdapter.proto_key = None /\
    (forall k v', MarkedAdapter.set seen text v !! k = Some v' ->
       v' = Number 0 \/ v' = NaN)).
  { intros v Hv. unfold MarkedAdapter.set. case_bool_decide as Hk; [done|].
    split; [by rewrite lookup_insert_ne|].
    intros k v'. rewrite lookup_insert. case_decide; [by intros [= <-]|apply Hvals]. }
  assert (Hget : forall v, v = Number 0 \/ v = NaN ->
    never_counted (MarkedAdapter.get (MarkedAdapter.set seen text v) text)).
  { intros v Hv. unfold MarkedAdapter.set, MarkedAdapter.get.
    case_bool_decide as Hk.
    - subst text. rewrite Hproto. right. right. reflexivity.
    - rewrite lookup_insert_eq. unfold never_counted. tauto. }
  assert (Hboth : forall v, v = Number 0 \/ v = NaN ->
    MarkedAdapter.set seen text v !! MarkedAdapter.proto_key = None /\
    (forall k v', MarkedAdapter.set seen text v !! k = Some v' ->
       v' = Number 0 \/ v' = NaN) /\
    never_counted (MarkedAdapter.get (MarkedAdapter.set seen text v) text)).
  { intros v Hv. destruct (Hset v Hv). split; [done|]. split; [done|]. by apply Hget. }
  assert (Hg : MarkedAdapter.get seen text = Number 0 \/
               MarkedAdapter.get seen text = NaN \/
               MarkedAdapter.get seen text = Inherited \/
               MarkedAdapter.get seen text = Undefined).
  { unfold MarkedAdapter.get. destruct (seen !! text) as [v|] eqn:Hv.
    - destruct (Hvals _ _ Hv); tauto.
    - case_bool_decide; tauto. }
  destruct Hg as [-> | [-> | [-> | ->]]]; simpl; apply Hboth; tauto.
Qed.

Lemma processHeadingToken_uncounted token :
  forall depth st, uncounted st ->
    uncounted (MarkedAdapter.processHeadingToken E options token depth st).
Proof.
  induction token as [hd text children IH| | | | |] using Token_children_ind;
    intros d st Hst; simpl; destruct (d >? _)%Z; try done.
  set (st' := MarkedAdapter.mkState _ _).
  assert (Hst' : uncounted st').
  { destruct Hst as (Hp & Hv & Hh).
    destruct (track_uncounted (MarkedAdapter.seen st) text Hp Hv) as (Hp' & Hv' & Hg).
    split; [done|]. split; [done|].
    apply Forall_app. split; [done|]. by constructor. }
  destruct children as [l|]; [|done].
  by apply (fold_children_invariant E options uncounted).
Qed.

(** No record ever carries a count above [0]. *)
Lemma seen_never_counts toks h :
  h ∈ json (MarkedAdapter.parse_tokens E options toks) ->
  never_counted (HeadingToken.seen h).
Proof.
  unfold MarkedAdapter.parse_tokens. simpl. rewrite generateJSONOutput_headings.
  assert (Hx : uncounted (MarkedAdapter.extractHeadings E options toks MarkedAdapter.init)).
  { unfold MarkedAdapter.extractHeadings.
    assert (Hi : uncounted MarkedAdapter.init).
    { split; [done|]. split; [|constructor]. intros k v Hk.
      simpl in Hk. by rewrite lookup_empty in Hk. }
    revert Hi. generalize MarkedAdapter.init.
    induction toks as [|t toks IH]; intros st Hst; simpl; [done|].
    apply IH. destruct t; try done. by apply processHeadingToken_uncounted. }
  destruct Hx as (_ & _ & Hh). rewrite Forall_forall in Hh.
  intros Hin. apply Hh. simpl in Hin.
  destruct (Opt.filter options) as [f|].
  - apply list_elem_of_In, filter_In in Hin as [Hin _].
    apply list_elem_of_In in Hin.
    destruct (Opt.firsth1 options); [done|].
    by apply (subseteq_drop 1).
  - destruct (Opt.firsth1 options); [done|].
    by apply (subseteq_drop 1).
Qed.
End Seen.

(** *** The depth guard *)

Section Depth.
Variable E : Externals.
Variable options : TOCOptions.

Lemma processHeadingToken_grows token :
  forall depth st,
    MarkedAdapter.headings st
    `prefix_of` MarkedAdapter.headings
                  (MarkedAdapter.processHeadingToken E options token depth st).
Proof.
  induction token as [hd text children IH| | | | |] using Token_children_ind;
    intros d st; simpl; destruct (d >? _)%Z; try done.
  set (st' := MarkedAdapter.mkState _ _).
  assert (Hst' : MarkedAdapter.headings st `prefix_of` MarkedAdapter.headings st')
    by by apply prefix_app_r.
  destruct children as [l|]; [|done].
  apply (fold_children_invariant E options
           (fun s => MarkedAdapter.headings st `prefix_of` MarkedAdapter.headings s));
    [|done].
  eapply Forall_impl; [exact IH|]. simpl.
  intros t Ht d' s Hs. by etrans.
Qed.

(** The guard of [processHeadingToken] sees the depth of the parent, [0]
    for a heading of the document: with a [maxdepth] that is not negative,
    such a heading is recorded whatever its level. *)
Lemma top_level_heading_recorded hd text children st :
  (0 <= MarkedAdapter.maxdepth_or_6 options)%Z ->
  exists h,
    h ∈ MarkedAdapter.headings
          (MarkedAdapter.processHeadingToken E options (Heading hd text children) 0 st)
    /\ HeadingToken.lvl h = hd /\ HeadingToken.content h = text.
Proof.
  intros Hmax. simpl.
  destruct (0 >? MarkedAdapter.maxdepth_or_6 options)%Z eqn:Hgt; [lia|].
  set (h := HeadingToken.mk text _ hd _ _).
  set (st' := MarkedAdapter.mkState _ _).
  exists h. split; [|done].
  assert (Hin : h ∈ MarkedAdapter.headings st').
  { apply elem_of_app. right. by left. }
  destruct children as [l|]; [|done].
  assert (Hp : MarkedAdapter.headings st' `prefix_of`
               MarkedAdapter.headings
                 (fold_left (fun st childToken =>
                    MarkedAdapter.processHeadingToken E options childToken hd st) l st')).
  { apply (fold_children_invariant E options
             (fun s => MarkedAdapter.headings st' `prefix_of` MarkedAdapter.headings s));
      [|done].
    apply Forall_forall. intros t _ d' s Hs.
    etrans; [exact Hs|]. apply processHeadingToken_grows. }
  destruct Hp as [k ->]. apply elem_of_app. by left.
Qed.
End Depth.

(** C1, at the document of two headings [## A]: both records have
    [seen = 0]; the second occurrence is not counted. *)
Theorem seen_of_repeated_heading E :
  map HeadingToken.seen (json (MarkedAdapter.parse_tokens E Opt.default twice_A))
  = [Number 0; Number 0].
Proof. vm_compute. reflexivity. Qed.

(** C2, at the document [### A] with [maxdepth: 2]: the record of level 3
    is in the [json] list. *)
Theorem json_keeps_deeper_heading E :
  map HeadingToken.lvl (json (MarkedAdapter.parse_tokens E maxdepth_two level_three))
  = [3%Z].
Proof. vm_compute. reflexivity. Qed.

(** C4, as amended: the document of two headings [## A] yields two
    records with content [A], slug [a], level 2 and indices 0 and 1, the
    first with [seen = 0]. *)
Theorem json_of_repeated_heading E :
  conforming E ->
  exists v,
    json (MarkedAdapter.parse_tokens E Opt.default twice_A)
    = [HeadingToken.mk (js "A") (js "a") 2 0 (Number 0);
       HeadingToken.mk (js "A") (js "a") 2 1 v].
Proof.
  intros HE. exists (Number 0).
  assert (Hs : utils.slugify E (js "A") Opt.default = js "a").
  { rewrite slugify_ascii by done. vm_compute. reflexivity. }
  rewrite <- Hs. vm_compute. reflexivity.
Qed.

Lemma json_of_repeated_heading_witness :
  conforming Reference.externals /\
  exists v,
    json (MarkedAdapter.parse_tokens Reference.externals Opt.default twice_A)
    = [HeadingToken.mk (js "A") (js "a") 2 0 (Number 0);
       HeadingToken.mk (js "A") (js "a") 2 1 v].
Proof.
  split; [exact reference_conforming|].
  exact (json_of_repeated_heading Reference.externals reference_conforming).
Defined.

(** C4 as stated fails: the second record has neither the slug [a-1] nor
    [seen = 1]. *)
Lemma json_of_repeated_heading_not_disambiguated :
  ~ (forall E, conforming E ->
       json (MarkedAdapter.parse_tokens E Opt.default twice_A)
       = [HeadingToken.mk (js "A") (js "a") 2 0 (Number 0);
          HeadingToken.mk (js "A") (js "a-1") 2 1 (Number 1)]).
Proof.
  intros H. specialize (H _ reference_conforming).
  vm_compute in H. discriminate H.
Qed.




(** ** Rendering *)






(** ** Scanning with a matcher *)

Section Scanning.
Variable m : jsstring -> option jsstring.

Local Abbreviation proper := (proper_matcher m).

Lemma split_from_skip k cur s :
  split_from m k cur s = split_from m 0 cur (drop k s).
Proof.
  revert k. induction s as [|c s IH]; intros [|k]; simpl; try done.
Qed.

Lemma split_from_match cur s r :
  proper -> m s = Some r ->
  split_from m 0 cur s = rev cur :: split_re m r.
Proof.
  intros Hp Hm. destruct (Hp _ _ Hm) as (c & w & ->).
  simpl. rewrite Hm.
  rewrite split_from_skip, length_app.
  replace (length w + length r - length r) with (length w) by lia.
  by rewrite drop_app_length.
Qed.

Lemma split_from_cur cur s :
  proper ->
  split_from m 0 cur s =
    match split_re m s with
    | hd :: tl => (rev cur ++ hd) :: tl
    | [] => []
    end.
Proof.
  intros Hp. unfold split_re. revert cur.
  induction s as [|c s IH]; intros cur.
  - simpl. by rewrite app_nil_r.
  - destruct (m (c :: s)) as [r|] eqn:Hm.
    + rewrite !(split_from_match _ _ r) by done. simpl. by rewrite app_nil_r.
    + simpl. rewrite Hm. rewrite (IH (c :: cur)), (IH [c]).
      destruct (split_from m 0 [] s); [done|]. simpl.
      by rewrite <- app_assoc.
Qed.

Lemma split_re_nonempty s : proper -> split_re m s <> [].
Proof.
  intros Hp. unfold split_re. generalize (@nil N).
  induction s as [|c s IH]; intros cur; [done|].
  destruct (m (c :: s)) as [r|] eqn:Hm.
  - by rewrite (split_from_match _ _ r).
  - simpl. rewrite Hm. apply IH.
Qed.

Lemma split_re_cons_nomatch c s :
  proper -> m (c :: s) = None ->
  split_re m (c :: s) =
    match split_re m s with
    | hd :: tl => (c :: hd) :: tl
    | [] => []
    end.
Proof.
  intros Hp Hm. unfold split_re at 1. simpl. rewrite Hm.
  by rewrite split_from_cur.
Qed.

(** A string in which nothing matches is its own single segment. *)
Lemma split_re_no_match s :
  proper -> (forall a b, s = a ++ b -> m b = None) -> split_re m s = [s].
Proof.
  intros Hp. induction s as [|c s IH]; intros Hm; [done|].
  rewrite split_re_cons_nomatch by (done || by apply (Hm [])).
  rewrite IH; [done|]. intros a b ->. by apply (Hm (c :: a)).
Qed.
End Scanning.

(** ** The marker pattern *)

Lemma match_marker_unfold s :
  Insert.match_marker s =
    match strip_prefix (js "<!-- toc") s with
    | Some r =>
        match strip_prefix (js "stop") (drop_while is_space r) with
        | Some r1 =>
            match strip_prefix (js " -->") r1 with
            | Some x => Some x
            | None => strip_prefix (js " -->") r
            end
        | None => strip_prefix (js " -->") r
        end
    | None => None
    end.
Proof.
  unfold Insert.match_marker.
  destruct (strip_prefix (js "<!-- toc") s) as [r|]; [|done].
  change (Some r ≫= ?f) with (f r). cbv beta.
  by destruct (strip_prefix (js "stop") (drop_while is_space r)).
Qed.

Lemma match_marker_spec s r :
  Insert.match_marker s = Some r <-> exists M, is_marker M /\ s = M ++ r.
Proof.
  rewrite match_marker_unfold. split.
  - destruct (strip_prefix (js "<!-- toc") s) as [r0|] eqn:H0; [|done].
    apply strip_prefix_Some in H0 as ->.
    assert (Hopen : strip_prefix (js " -->") r0 = Some r ->
              exists M, is_marker M /\ js "<!-- toc" ++ r0 = M ++ r).
    { intros H3%strip_prefix_Some. subst r0. exists open_marker.
      split; [constructor | done]. }
    destruct (strip_prefix (js "stop") (drop_while is_space r0)) as [r1|] eqn:H1;
      [|done].
    destruct (strip_prefix (js " -->") r1) as [r2|] eqn:H2; [|done].
    intros [= ->]. apply strip_prefix_Some in H1, H2. subst r1.
    exists (marker_variant (take_while is_space r0)).
    split; [constructor; apply take_while_all|].
    unfold marker_variant. rewrite <- (take_drop_while is_space r0) at 1.
    rewrite H1. by rewrite <- !app_assoc.
  - intros (M & HM & ->). destruct HM as [|w Hw].
    + reflexivity.
    + unfold marker_variant. rewrite <- !app_assoc.
      rewrite strip_prefix_app.
      change (js "stop -->" ++ r) with (115%N :: js "top -->" ++ r).
      rewrite (drop_while_app_stop is_space w) by done.
      reflexivity.
Qed.

Local Abbreviation LT := (0x3C%N).
Local Abbreviation GT := (0x3E%N).

Lemma space_not_lt w : forallb is_space w = true -> LT ∉ w.
Proof.
  intros Hw Hin. rewrite forallb_forall in Hw.
  apply list_elem_of_In, Hw in Hin. done.
Qed.

(** A marker starts with [<], has no other [<], and ends with [>]. *)
Lemma is_marker_shape M :
  is_marker M ->
  exists M0, M = LT :: M0 /\ (LT ∉ M0) /\ (exists M1, M0 = M1 ++ [GT]).
Proof.
  intros [|w Hw].
  - exists (js "!-- toc -->"). split; [done|]. split.
    + vm_compute. intros H. repeat (apply elem_of_cons in H as [H|H]; [done|]).
      by apply elem_of_nil in H.
    + by exists (js "!-- toc --").
  - exists (js "!-- toc" ++ w ++ js "stop -->"). split; [done|]. split.
    + intros H. apply elem_of_app in H as [H|H]; [|apply elem_of_app in H as [H|H]].
      * vm_compute in H. repeat (apply elem_of_cons in H as [H|H]; [done|]).
        by apply elem_of_nil in H.
      * by apply space_not_lt in H.
      * vm_compute in H. repeat (apply elem_of_cons in H as [H|H]; [done|]).
        by apply elem_of_nil in H.
    + exists (js "!-- toc" ++ w ++ js "stop --").
      by rewrite <- !app_assoc.
Qed.

Lemma match_marker_proper : proper_matcher Insert.match_marker.
Proof.
  intros s r (M & HM & ->)%match_marker_spec.
  destruct (is_marker_shape M HM) as (M0 & -> & _). by exists LT, M0.
Qed.

Lemma match_marker_first c s r : Insert.match_marker (c :: s) = Some r -> c = LT.
Proof.
  intros (M & HM & Hs)%match_marker_spec.
  destruct (is_marker_shape M HM) as (M0 & -> & _). by injection Hs.
Qed.

(** A match does not depend on what follows it. *)
Lemma match_marker_extend t r y :
  Insert.match_marker t = Some r -> Insert.match_marker (t ++ y) = Some (r ++ y).
Proof.
  intros (M & HM & ->)%match_marker_spec. apply match_marker_spec.
  exists M. by rewrite <- app_assoc.
Qed.

(** If [M0] has no [c], a split of [t ++ c :: x] after [M0] falls in [t]. *)
Lemma app_eq_cons_not_in (c : N) M0 t x r :
  c ∉ M0 -> t ++ c :: x = M0 ++ r -> exists r', t = M0 ++ r' /\ r = r' ++ c :: x.
Proof.
  intros Hc H. apply app_eq_app in H as [l [[-> ->]|[-> H]]].
  - by exists l.
  - destruct l as [|d l].
    + exists []. by rewrite !app_nil_r.
    + simpl in H. injection H as <- _. exfalso. apply Hc.
      apply elem_of_app. right. by left.
Qed.

(** A match that starts before a [<] ends before it. *)
Lemma match_marker_before_lt t x :
  t <> [] ->
  Insert.match_marker (t ++ LT :: x) = (fun r => r ++ LT :: x) <$> Insert.match_marker t.
Proof.
  intros Ht. destruct (Insert.match_marker t) as [r|] eqn:Hm; simpl.
  - by apply match_marker_extend.
  - destruct (Insert.match_marker (t ++ LT :: x)) as [r|] eqn:Hm'; [|done].
    apply match_marker_spec in Hm' as (M & HM & Heq).
    destruct (is_marker_shape M HM) as (M0 & -> & HM0 & _).
    destruct t as [|c t]; [done|]. simpl in Heq. injection Heq as -> Heq.
    apply app_eq_cons_not_in in Heq as (r' & -> & ->); [|done].
    assert (Insert.match_marker (LT :: M0 ++ r') = Some r') as Hm2.
    { apply match_marker_spec. by exists (LT :: M0). }
    congruence.
Qed.

(** Each marker separates: the segments on its two sides are those of the
    two sides taken alone. *)
Lemma split_re_app_marker a M b :
  is_marker M ->
  split_re Insert.match_marker (a ++ M ++ b)
  = split_re Insert.match_marker a ++ split_re Insert.match_marker b.
Proof.
  intros HM. pose proof match_marker_proper as Hp.
  destruct (is_marker_shape M HM) as (M0 & HM0 & _).
  assert (Hb : Insert.match_marker (M ++ b) = Some b).
  { apply match_marker_spec. by exists M. }
  remember (length a) as n eqn:Hn. revert a Hn.
  induction n as [n IH] using lt_wf_ind. intros [|c a] Hn.
  - simpl. unfold split_re at 1. by rewrite (split_from_match _ _ _ b).
  - destruct (Insert.match_marker (c :: a)) as [r|] eqn:Hm.
    + destruct (Hp _ _ Hm) as (c' & w & Heq).
      unfold split_re at 1 2.
      rewrite (split_from_match _ _ _ (r ++ M ++ b)), (split_from_match _ _ _ r);
        [|done|done|done|by apply match_marker_extend].
      simpl. f_equal. apply (IH (length r)); [|done].
      rewrite Hn, Heq. simpl. rewrite length_app. lia.
    + assert (Hm' : Insert.match_marker ((c :: a) ++ M ++ b) = None).
      { rewrite HM0. simpl ((LT :: M0) ++ b).
        rewrite match_marker_before_lt by done. by rewrite Hm. }
      simpl in Hm'. simpl.
      rewrite !split_re_cons_nomatch by done.
      rewrite (IH (length a)) by (done || (rewrite Hn; simpl; lia)).
      pose proof (split_re_nonempty _ a Hp).
      by destruct (split_re Insert.match_marker a).
Qed.

(** ** The number of sections *)

Lemma three_markers_four_sections a b c d M1 M2 M3 :
  is_marker M1 -> is_marker M2 -> is_marker M3 ->
  3 < length (Insert.split (a ++ M1 ++ b ++ M2 ++ c ++ M3 ++ d)
                (split_re Insert.match_marker)).
Proof.
  intros H1 H2 H3. unfold Insert.split.
  rewrite !split_re_app_marker, !length_map, !length_app by done.
  pose proof match_marker_proper as Hp.
  pose proof (split_re_nonempty _ a Hp). pose proof (split_re_nonempty _ b Hp).
  pose proof (split_re_nonempty _ c Hp). pose proof (split_re_nonempty _ d Hp).
  destruct (split_re _ a), (split_re _ b), (split_re _ c), (split_re _ d);
    simpl; try done; lia.
Qed.

Section InsertCount.
Variable E : Externals.
Variable options : InsertOptions.

Lemma insert_more_than_three str secs :
  sections_of E str options = Ok secs ->
  3 < length secs ->
  Insert.insert E str options = Throw OneTOCPerFile.
Proof.
  unfold sections_of, body_of, Insert.insert. intros Hs Hlen.
  destruct (startsWith (js "---") str).
  - destruct (matter E str) as [[c data]|e]; simpl in *; [|done].
    injection Hs as <-. by apply Nat.ltb_lt in Hlen as ->.
  - simpl in *. injection Hs as <-. by apply Nat.ltb_lt in Hlen as ->.
Qed.

Lemma insert_at_most_one str secs :
  sections_of E str options = Ok secs ->
  length secs <= 1 ->
  exists out, Insert.insert E str options = Ok out /\
    (startsWith (js "---") str = false ->
     out = join [LF; LF] secs ++ Insert.trailing_newlines str).
Proof.
  unfold sections_of, body_of, Insert.insert. intros Hs Hlen.
  destruct (startsWith (js "---") str).
  - destruct (matter E str) as [[c data]|e]; simpl in *; [|done].
    injection Hs as <-.
    destruct (Insert.split c _) as [|s0 [|s1 l]]; simpl in *; try lia;
      (eexists; split; [reflexivity | done]).
  - simpl in *. injection Hs as <-.
    destruct (Insert.split str _) as [|s0 [|s1 l]]; simpl in *; try lia;
      (eexists; split; [reflexivity | done]).
Qed.
End InsertCount.

(** C3, as amended: [insert] fails when the body splits into more than 3
    sections, and so when it holds three or more markers; a body that
    splits into 0 or 1 section (no marker) is not rejected: the sections,
    joined, are returned with the line feeds the document ends with. *)
Theorem insert_section_count E options str secs :
  sections_of E str options = Ok secs ->
  (3 < length secs -> Insert.insert E str options = Throw OneTOCPerFile) /\
  (length secs <= 1 ->
     exists out, Insert.insert E str options = Ok out /\
       (startsWith (js "---") str = false ->
        out = join [LF; LF] secs ++ Insert.trailing_newlines str)) /\
  (forall a b c d M1 M2 M3,
     InsertOpt.regex options = None ->
     is_marker M1 -> is_marker M2 -> is_marker M3 ->
     body_of E str = Ok (a ++ M1 ++ b ++ M2 ++ c ++ M3 ++ d) ->
     Insert.insert E str options = Throw OneTOCPerFile).
Proof.
  intros Hs. split; [by apply insert_more_than_three|].
  split; [by apply insert_at_most_one|].
  intros a b c d M1 M2 M3 Hre H1 H2 H3 Hb.
  apply (insert_more_than_three E options str secs Hs).
  unfold sections_of in Hs. rewrite Hb, Hre in Hs. simpl in Hs.
  injection Hs as <-. by apply three_markers_four_sections.
Qed.

Lemma insert_section_count_witness :
  sections_of Reference.externals
    (js "<!-- toc -->a<!-- toc -->b<!-- toc -->c") InsertOpt.default
  = Ok [[]; js "a"; js "b"; js "c"] /\
  3 < length [[]; js "a"; js "b"; js "c"] /\
  Insert.insert Reference.externals
    (js "<!-- toc -->a<!-- toc -->b<!-- toc -->c") InsertOpt.default
  = Throw OneTOCPerFile.
Proof.
  assert (Hs : sections_of Reference.externals
    (js "<!-- toc -->a<!-- toc -->b<!-- toc -->c") InsertOpt.default
    = Ok [[]; js "a"; js "b"; js "c"]) by reflexivity.
  split; [exact Hs|]. split; [simpl; lia|].
  apply (proj1 (insert_section_count Reference.externals InsertOpt.default
                  (js "<!-- toc -->a<!-- toc -->b<!-- toc -->c") _ Hs)).
  simpl. lia.
Defined.

(** C3 as stated fails: a document without a marker, of one section, is
    returned. *)
Lemma insert_without_marker_returns :
  ~ (forall E options str secs,
       sections_of E str options = Ok secs ->
       length secs <> 2 -> length secs <> 3 ->
       exists e, Insert.insert E str options = Throw e).
Proof.
  intros H.
  destruct (H Reference.externals InsertOpt.default (js "hello") [js "hello"])
    as [e He]; try done.
Qed.

(** ** Sections without a marker *)

Lemma marker_free_nil : marker_free [].
Proof. intros a b H. symmetry in H. by apply app_eq_nil in H as [_ ->]. Qed.

Lemma marker_free_cons c s :
  Insert.match_marker (c :: s) = None -> marker_free s -> marker_free (c :: s).
Proof.
  intros Hc Hs [|a0 a] b Hab; simpl in Hab.
  - by subst b.
  - injection Hab as _ Hab. by apply (Hs a).
Qed.

(** A piece of a string without a marker has no marker. *)
Lemma marker_free_middle a s b : marker_free (a ++ s ++ b) -> marker_free s.
Proof.
  intros H x t ->.
  destruct (Insert.match_marker t) as [r|] eqn:Hm; [|done].
  apply (match_marker_extend _ _ b) in Hm.
  rewrite (H (a ++ x) (t ++ b)) in Hm; [done|].
  by rewrite <- !app_assoc.
Qed.

Lemma match_marker_not_lt c s : c <> LT -> Insert.match_marker (c :: s) = None.
Proof.
  intros Hc. destruct (Insert.match_marker (c :: s)) eqn:Hm; [|done].
  by apply match_marker_first in Hm.
Qed.

Lemma space_is_not_lt c : is_space c = true -> c <> LT.
Proof. by intros H ->. Qed.

(** White space in front of a string brings no marker. *)
Lemma marker_free_spaces_before w s :
  forallb is_space w = true -> marker_free s -> marker_free (w ++ s).
Proof.
  intros Hw Hs. induction w as [|c w IH]; [done|].
  simpl in *. apply andb_prop in Hw as [Hc Hw].
  apply marker_free_cons; [|by apply IH].
  by apply match_marker_not_lt, space_is_not_lt.
Qed.

Lemma last_of_app (M1 b l : jsstring) (g : N) :
  M1 ++ [g] = b ++ l -> l <> [] -> g ∈ l.
Proof.
  intros H Hl. induction l as [|x l _] using rev_ind; [done|].
  rewrite app_assoc in H. apply app_inj_tail in H as [_ ->].
  apply elem_of_app. right. by left.
Qed.

(** Nor does white space behind it: a marker ends with [>]. *)
Lemma marker_free_spaces_after s w :
  forallb is_space w = true -> marker_free s -> marker_free (s ++ w).
Proof.
  intros Hw Hs a b Hab.
  destruct (Insert.match_marker b) as [r|] eqn:Hm; [exfalso|done].
  apply match_marker_spec in Hm as (M & HM & ->).
  assert (Hgt : GT ∉ w).
  { intros Hin. rewrite forallb_forall in Hw.
    apply list_elem_of_In, Hw in Hin. done. }
  assert (Hin : forall l, Insert.match_marker (M ++ l) = Some l).
  { intros l. apply match_marker_spec. by exists M. }
  rewrite app_assoc in Hab.
  apply app_eq_app in Hab as [l [[-> Hr]|[Hal ->]]].
  - specialize (Hin l). rewrite (Hs a (M ++ l)) in Hin; [done|].
    by rewrite <- app_assoc.
  - destruct l as [|x l].
    + rewrite app_nil_r in Hal. subst s.
      specialize (Hin []). rewrite app_nil_r in Hin.
      by rewrite (Hs a M) in Hin.
    + apply Hgt. apply elem_of_app. left.
      destruct (is_marker_shape M HM) as (M0 & -> & _ & M1 & ->).
      apply (last_of_app (a ++ LT :: M1) s); [|done].
      rewrite <- Hal. by rewrite <- !app_assoc.
Qed.

Lemma marker_free_padded w1 s w2 :
  forallb is_space w1 = true -> forallb is_space w2 = true ->
  marker_free s -> marker_free (w1 ++ s ++ w2).
Proof.
  intros H1 H2 Hs.
  by apply marker_free_spaces_before, marker_free_spaces_after.
Qed.

(** The shape of a split, and back. *)
Lemma split_re_Segments s : Segments s (split_re Insert.match_marker s).
Proof.
  pose proof match_marker_proper as Hp.
  remember (length s) as n eqn:Hn. revert s Hn.
  induction n as [n IH] using lt_wf_ind. intros [|c s] Hn.
  - constructor. apply marker_free_nil.
  - destruct (Insert.match_marker (c :: s)) as [r|] eqn:Hm.
    + unfold split_re. rewrite (split_from_match _ _ _ r) by done. simpl.
      pose proof Hm as (M & HM & Heq)%match_marker_spec. rewrite Heq.
      apply (Segments_cons [] M r); [apply marker_free_nil | done |].
      apply (IH (length r)); [|done].
      rewrite Hn, Heq, length_app.
      destruct (is_marker_shape M HM) as (M0 & -> & _). simpl. lia.
    + rewrite split_re_cons_nomatch by done.
      specialize (IH (length s) ltac:(rewrite Hn; simpl; lia) s eq_refl).
      inversion IH as [s' Hfree Hs' Hsegs|seg M rest segs Hfree HM Hrest Hs' Hsegs].
      * constructor. by apply marker_free_cons.
      * rewrite <- Hs' in Hm.
        apply (Segments_cons (c :: seg) M rest); [|done|done].
        apply marker_free_cons; [|done].
        destruct (Insert.match_marker (c :: seg)) as [r|] eqn:Hm'; [|done].
        apply (match_marker_extend _ _ (M ++ rest)) in Hm'.
        simpl in Hm'. by rewrite Hm in Hm'.
Qed.

Lemma Segments_nonempty s segs : Segments s segs -> segs <> [].
Proof. by intros []. Qed.

Lemma split_re_single c :
  split_re Insert.match_marker c = [c] -> marker_free c.
Proof.
  intros H. pose proof (split_re_Segments c) as Hs. rewrite H in Hs.
  inversion Hs as [s' Hfree|seg M rest segs Hfree HM Hrest Hs' Hsegs]; [done|].
  by apply Segments_nonempty in Hrest.
Qed.

Lemma split_re_three str s0 s1 s2 :
  split_re Insert.match_marker str = [s0; s1; s2] ->
  marker_free s0 /\ marker_free s1 /\ marker_free s2.
Proof.
  intros H. pose proof (split_re_Segments str) as Hs. rewrite H in Hs.
  inversion Hs as [|? ? ? ? H0 _ Hs1]; subst.
  inversion Hs1 as [|? ? ? ? H1 _ Hs2]; subst.
  inversion Hs2 as [? H2|? ? ? ? _ _ Hs3]; subst; [done|].
  by apply Segments_nonempty in Hs3.
Qed.

(** ** Trimming *)

Lemma drop_while_all p w : forallb p w = true -> drop_while p w = [].
Proof.
  induction w as [|c w IH]; simpl; [done|].
  by intros [-> Hw]%andb_prop; apply IH.
Qed.

Lemma drop_while_app_all p w x :
  forallb p w = true -> drop_while p (w ++ x) = drop_while p x.
Proof.
  induction w as [|c w IH]; simpl; [done|].
  by intros [-> Hw]%andb_prop; apply IH.
Qed.

Lemma drop_while_app_keep p x y :
  drop_while p x <> [] -> drop_while p (x ++ y) = drop_while p x ++ y.
Proof.
  induction x as [|c x IH]; simpl; [done|].
  destruct (p c); [apply IH | done].
Qed.

Lemma drop_while_head p s c r : drop_while p s = c :: r -> p c = false.
Proof.
  induction s as [|d s IH]; simpl; [done|].
  destruct (p d) eqn:Hd; [done|]. by intros [= <- _].
Qed.

Lemma forallb_rev (p : N -> bool) w : forallb p (rev w) = forallb p w.
Proof.
  induction w as [|c w IH]; simpl; [done|].
  rewrite forallb_app, IH. simpl. rewrite andb_true_r. apply andb_comm.
Qed.

Lemma drop_while_nil_all p x : drop_while p x = [] -> forallb p x = true.
Proof.
  induction x as [|c x IH]; simpl; [done|].
  destruct (p c); [apply IH | done].
Qed.

Lemma trimEnd_app_spaces y w :
  forallb is_space w = true -> trimEnd (y ++ w) = trimEnd y.
Proof.
  intros Hw. unfold trimEnd. rewrite rev_app_distr.
  rewrite drop_while_app_all; [done|]. by rewrite forallb_rev.
Qed.

(** White space around a string is trimmed away with its own. *)
Lemma trim_padded w1 x w2 :
  forallb is_space w1 = true -> forallb is_space w2 = true ->
  trim (w1 ++ x ++ w2) = trim x.
Proof.
  intros H1 H2. unfold trim, trimStart.
  rewrite drop_while_app_all by done.
  destruct (drop_while is_space x) as [|c r] eqn:Hx.
  - rewrite drop_while_app_all by by apply drop_while_nil_all.
    by rewrite drop_while_all.
  - rewrite drop_while_app_keep by by rewrite Hx.
    rewrite Hx. by apply trimEnd_app_spaces.
Qed.

Lemma trim_decompose s :
  exists w1 w2, s = w1 ++ trim s ++ w2 /\
    forallb is_space w1 = true /\ forallb is_space w2 = true.
Proof.
  exists (take_while is_space s),
         (rev (take_while is_space (rev (trimStart s)))).
  split; [|split].
  - unfold trim, trimEnd. rewrite <- rev_app_distr, take_drop_while.
    rewrite rev_involutive. unfold trimStart. by rewrite take_drop_while.
  - apply take_while_all.
  - rewrite forallb_rev. apply take_while_all.
Qed.

Lemma trim_trim s : trim (trim s) = trim s.
Proof.
  destruct (trim_decompose s) as (w1 & w2 & Hs & H1 & H2).
  rewrite Hs at 2. by rewrite trim_padded.
Qed.

Lemma marker_free_trim s : marker_free s -> marker_free (trim s).
Proof.
  destruct (trim_decompose s) as (w1 & w2 & Hs & _).
  intros H. rewrite Hs in H. by apply marker_free_middle in H.
Qed.

(** A trimmed string that is not empty ends with a code unit that is not
    white space. *)
Lemma trim_last s :
  trim s <> [] -> exists c r, rev (trim s) = c :: r /\ is_space c = false.
Proof.
  unfold trim, trimEnd. intros H.
  rewrite rev_involutive.
  destruct (drop_while is_space (rev (trimStart s))) as [|c r] eqn:Hd; [done|].
  exists c, r. split; [done|]. by apply drop_while_head in Hd.
Qed.

(** ** The line feeds at the end *)

Lemma take_while_app_stop p w c x :
  forallb p w = true -> p c = false -> take_while p (w ++ c :: x) = w.
Proof.
  intros Hw Hc. induction w as [|a w IH]; simpl in *; [by rewrite Hc|].
  apply andb_prop in Hw as [-> Hw]. by rewrite IH.
Qed.

Lemma trailing_newlines_kept u post str :
  trim post <> [] ->
  Insert.trailing_newlines (u ++ trim post ++ Insert.trailing_newlines str)
  = Insert.trailing_newlines str.
Proof.
  intros Hp. destruct (trim_last post Hp) as (c & r & Hrev & Hc).
  unfold Insert.trailing_newlines.
  rewrite !rev_app_distr, Hrev, rev_involutive, <- app_assoc. simpl.
  rewrite take_while_app_stop; [done|apply take_while_all|].
  unfold Insert.is_lf. destruct (N.eqb_spec c LF) as [->|]; done.
Qed.

(** ** Front matter *)

Lemma strip_prefix_before (c : N) p t x :
  c ∉ p ->
  strip_prefix p (t ++ c :: x) = (fun r => r ++ c :: x) <$> strip_prefix p t.
Proof.
  revert t. induction p as [|a p IH]; intros t Hc; simpl; [done|].
  assert (a <> c) by (intros ->; apply Hc; by left).
  assert (c ∉ p) by (intros ?; apply Hc; by right).
  destruct t as [|b t]; simpl.
  - unfold eqc. by destruct (N.eqb_spec a c).
  - destruct (eqc a b); [by apply IH | done].
Qed.

Lemma startsWith_before (c : N) p t x :
  c ∉ p -> startsWith p (t ++ c :: x) = startsWith p t.
Proof.
  intros Hc. unfold startsWith. rewrite strip_prefix_before by done.
  by destruct (strip_prefix p t).
Qed.

(** ** Inserting twice *)

(** The result of [insert] splits into the sections it was built from. *)
Lemma insert_once_resplits pre c post nl :
  marker_free pre -> marker_free c -> marker_free post ->
  forallb is_space nl = true ->
  Insert.split
    (join [LF; LF] [pre; Insert.default_open ++ c; Insert.default_close; post] ++ nl)
    (split_re Insert.match_marker)
  = [trim pre; trim c; trim post].
Proof.
  intros Hpre Hc Hpost Hnl.
  pose proof match_marker_proper as Hp.
  replace (join [LF; LF] [pre; Insert.default_open ++ c; Insert.default_close; post] ++ nl)
    with ((pre ++ [LF; LF]) ++ open_marker
          ++ ([LF; LF] ++ c ++ [LF; LF]) ++ marker_variant []
          ++ ([LF; LF] ++ post ++ nl)).
  2:{ unfold Insert.default_open, Insert.default_close, open_marker, marker_variant.
      cbn [join]. by rewrite <- !app_assoc. }
  unfold Insert.split.
  rewrite !split_re_app_marker by by constructor.
  rewrite (split_re_no_match _ (pre ++ [LF; LF])), (split_re_no_match _ ([LF; LF] ++ c ++ [LF; LF])),
    (split_re_no_match _ ([LF; LF] ++ post ++ nl)); try done.
  - unfold Insert.trim. cbn [map app].
    rewrite <- (app_nil_l (pre ++ [LF; LF])).
    change (LF :: LF :: c ++ [LF; LF]) with ([LF; LF] ++ c ++ [LF; LF]).
    change (LF :: LF :: post ++ nl) with ([LF; LF] ++ post ++ nl).
    by rewrite (trim_padded [] pre [LF; LF]), (trim_padded [LF; LF] c [LF; LF]),
      (trim_padded [LF; LF] post nl).
  - by apply marker_free_padded.
  - by apply marker_free_padded.
  - rewrite <- (app_nil_l (pre ++ _)). by apply marker_free_padded.
Qed.

Section InsertTwice.
Variable E : Externals.
Variable options : InsertOptions.
Hypothesis Hregex : InsertOpt.regex options = None.
Hypothesis Hopen : InsertOpt.open options = None.
Hypothesis Hclose : InsertOpt.close options = None.

Lemma insert_three str pre old post c :
  startsWith (js "---") str = false ->
  Insert.split str (split_re Insert.match_marker) = [pre; old; post] ->
  supplied_or_rendered E post options = Ok c ->
  Insert.insert E str options
  = Ok (join [LF; LF] [pre; Insert.default_open ++ c; Insert.default_close; post]
        ++ Insert.trailing_newlines str).
Proof using Hregex Hopen Hclose.
  intros Hfm Hsplit Hc. unfold Insert.insert.
  rewrite Hregex, Hopen, Hclose, Hfm. cbn [from_option mbind result_bind fst].
  rewrite Hsplit. cbn [length Nat.ltb Nat.leb Nat.eqb last from_option].
  unfold supplied_or_rendered in Hc. change (id post) with post.
  rewrite Hc. reflexivity.
Qed.

End InsertTwice.

Lemma trailing_newlines_spaces str :
  forallb is_space (Insert.trailing_newlines str) = true.
Proof.
  unfold Insert.trailing_newlines. rewrite forallb_rev.
  apply forallb_forall. intros c Hc.
  pose proof (take_while_all Insert.is_lf (rev str)) as Hall.
  rewrite forallb_forall in Hall. apply Hall in Hc.
  unfold Insert.is_lf in Hc. by apply N.eqb_eq in Hc as ->.
Qed.

(** X17: where [insert] is idempotent: on a document without front matter
    that splits into three sections on the default markers, whose text
    before the table does not start like front matter, whose text after
    it is not empty, and whose table of contents holds no marker, a
    second [insert] returns the result of the first. *)
Lemma insert_twice_unchanged E options str pre old post c :
  InsertOpt.regex options = None ->
  InsertOpt.open options = None ->
  InsertOpt.close options = None ->
  startsWith (js "---") str = false ->
  Insert.split str (split_re Insert.match_marker) = [pre; old; post] ->
  startsWith (js "---") pre = false ->
  post <> [] ->
  supplied_or_rendered E post options = Ok c ->
  split_re Insert.match_marker c = [c] ->
  exists out,
    Insert.insert E str options = Ok out /\
    Insert.insert E out options = Ok out.
Proof.
  intros Hregex Hopen Hclose Hfm Hsplit Hpre Hpost Hc Hfree.
  eexists. split; [by apply (insert_three E options Hregex Hopen Hclose str pre old post c)|].
  unfold Insert.split in Hsplit.
  destruct (split_re Insert.match_marker str) as [|s0 [|s1 [|s2 [|s3 l]]]] eqn:Hs;
    try done.
  injection Hsplit as <- <- <-.
  apply split_re_three in Hs as (H0 & _ & H2).
  apply split_re_single in Hfree.
  pose proof (trailing_newlines_spaces str) as Hnl.
  rewrite (insert_three E options Hregex Hopen Hclose _
             (Insert.trim s0) (Insert.trim c) (Insert.trim s2) c).
  - f_equal. f_equal. unfold Insert.trim. cbn [join].
    rewrite !app_assoc. rewrite <- (app_assoc _ (trim s2)).
    by apply trailing_newlines_kept.
  - cbn [join]. rewrite <- !app_assoc.
    change ([LF; LF] ++ ?x) with (LF :: ([LF] ++ x)).
    rewrite startsWith_before; [done|].
    vm_compute. intros H. repeat (apply elem_of_cons in H as [H|H]; [done|]).
    by apply elem_of_nil in H.
  - unfold Insert.trim. rewrite insert_once_resplits; try done.
    + by rewrite !trim_trim.
    + by apply marker_free_trim.
    + by apply marker_free_trim.
  - done.
Qed.

(** On [doc_with_toc] the second [insert] changes nothing. *)
Example insert_twice_doc_with_toc :
  exists out,
    Insert.insert Reference.externals doc_with_toc InsertOpt.default = Ok out /\
    Insert.insert Reference.externals out InsertOpt.default = Ok out.
Proof.
  apply (insert_twice_unchanged Reference.externals InsertOpt.default doc_with_toc
           doc_with_toc_pre doc_with_toc_old doc_with_toc_post doc_with_toc_table);
    try reflexivity; done.
Defined.

(** C7, at a document that ends with its table of contents: the first
    [insert] leaves three line feeds at the end where there was one, and
    the second adds two more. *)
Theorem insert_twice_adds_line_feeds E :
  lexer E [] = Ok [] ->
  Insert.insert E doc_ending_with_toc InsertOpt.default
  = Ok doc_ending_with_toc_inserted /\
  Insert.insert E doc_ending_with_toc_inserted InsertOpt.default
  = Ok (doc_ending_with_toc_inserted ++ [LF; LF]).
Proof.
  intros Hlex.
  assert (Htoc : supplied_or_rendered E [] InsertOpt.default = Ok []).
  { unfold supplied_or_rendered, toc, MarkedAdapter.parse. simpl.
    rewrite Hlex. reflexivity. }
  split.
  - by rewrite (insert_three E InsertOpt.default eq_refl eq_refl eq_refl
                  doc_ending_with_toc (js "# Title") (js "- old") [] []).
  - by rewrite (insert_three E InsertOpt.default eq_refl eq_refl eq_refl
                  doc_ending_with_toc_inserted (js "# Title") [] [] []).
Qed.

Lemma insert_twice_adds_line_feeds_witness :
  lexer Reference.externals [] = Ok [] /\
  Insert.insert Reference.externals doc_ending_with_toc_inserted InsertOpt.default
  = Ok (doc_ending_with_toc_inserted ++ [LF; LF]).
Proof.
  split; [reflexivity|].
  exact (proj2 (insert_twice_adds_line_feeds Reference.externals eq_refl)).
Defined.

(** ** The stop variants *)

Lemma take_while_app_cut (p : N -> bool) l c r :
  p c = false -> take_while p (l ++ c :: r) = take_while p (l ++ [c]).
Proof.
  intros Hc. induction l as [|a l IH]; simpl; [by rewrite Hc|]. by rewrite IH.
Qed.

(** What precedes the end of a marker has no part in the line feeds a
    document ends with. *)
Lemma trailing_newlines_after_marker pre M post :
  is_marker M ->
  Insert.trailing_newlines (pre ++ M ++ post)
  = Insert.trailing_newlines (GT :: post).
Proof.
  intros HM. destruct (is_marker_shape M HM) as (M0 & -> & _ & M1 & ->).
  unfold Insert.trailing_newlines. f_equal.
  replace (pre ++ (LT :: M1 ++ [GT]) ++ post)
    with ((pre ++ LT :: M1) ++ GT :: post)
    by (rewrite <- !app_assoc; simpl; by rewrite <- !app_assoc).
  rewrite rev_app_distr. simpl rev. rewrite <- !app_assoc. simpl.
  by rewrite take_while_app_cut.
Qed.

Lemma startsWith_marker pre M post :
  is_marker M ->
  startsWith (js "---") (pre ++ M ++ post) = startsWith (js "---") pre.
Proof.
  intros HM. destruct (is_marker_shape M HM) as (M0 & -> & _).
  simpl. apply startsWith_before.
  vm_compute. intros H. repeat (apply elem_of_cons in H as [H|H]; [done|]).
  by apply elem_of_nil in H.
Qed.

(** Without front matter, [insert] reads of the document its sections and
    the line feeds it ends with, and nothing else. *)
Lemma insert_same_sections E options s1 s2 :
  InsertOpt.regex options = None ->
  startsWith (js "---") s1 = false -> startsWith (js "---") s2 = false ->
  Insert.split s1 (split_re Insert.match_marker)
  = Insert.split s2 (split_re Insert.match_marker) ->
  Insert.trailing_newlines s1 = Insert.trailing_newlines s2 ->
  Insert.insert E s1 options = Insert.insert E s2 options.
Proof.
  intros Hre H1 H2 Hs Hn. unfold Insert.insert.
  rewrite Hre, H1, H2, Hn. cbn [from_option mbind result_bind].
  by rewrite Hs.
Qed.

(** C10: [<!-- toc], any run of white space (none included), [stop -->] is
    matched whole by the default pattern, like [<!-- toc -->], and wherever
    it stands in the body it separates two runs of sections: the sections of
    the body are those of the text before it followed by those of the text
    after it.  It is consumed: the body has at least two sections, and they
    are the two texts around it, trimmed, when these hold no marker.  It
    counts in the number of sections [insert] checks: when the texts around
    it make more than three sections together, [insert] fails with its
    error; and in a document without front matter [insert] returns for it
    what it returns for any other marker in its place. *)
Theorem stop_variants_are_markers w pre post :
  forallb is_space w = true ->
  Insert.match_marker (marker_variant w ++ post) = Some post /\
  Insert.match_marker (open_marker ++ post) = Some post /\
  marker_variant [] = js "<!-- tocstop -->" /\
  Insert.split (pre ++ marker_variant w ++ post) (split_re Insert.match_marker)
  = Insert.split pre (split_re Insert.match_marker)
    ++ Insert.split post (split_re Insert.match_marker) /\
  Insert.split (pre ++ open_marker ++ post) (split_re Insert.match_marker)
  = Insert.split pre (split_re Insert.match_marker)
    ++ Insert.split post (split_re Insert.match_marker) /\
  2 <= length (Insert.split (pre ++ marker_variant w ++ post)
                 (split_re Insert.match_marker)) /\
  (marker_free pre -> marker_free post ->
   Insert.split (pre ++ marker_variant w ++ post) (split_re Insert.match_marker)
   = [Insert.trim pre; Insert.trim post]) /\
  (forall E options str,
     InsertOpt.regex options = None ->
     body_of E str = Ok (pre ++ marker_variant w ++ post) ->
     3 < length (Insert.split pre (split_re Insert.match_marker))
         + length (Insert.split post (split_re Insert.match_marker)) ->
     Insert.insert E str options = Throw OneTOCPerFile) /\
  (forall E options M,
     InsertOpt.regex options = None ->
     is_marker M ->
     startsWith (js "---") pre = false ->
     Insert.insert E (pre ++ marker_variant w ++ post) options
     = Insert.insert E (pre ++ M ++ post) options).
Proof.
  intros Hw. assert (HM : is_marker (marker_variant w)) by by constructor.
  pose proof match_marker_proper as Hp.
  assert (Hsplit : forall M, is_marker M ->
            Insert.split (pre ++ M ++ post) (split_re Insert.match_marker)
            = Insert.split pre (split_re Insert.match_marker)
              ++ Insert.split post (split_re Insert.match_marker)).
  { intros M HM'. unfold Insert.split. by rewrite split_re_app_marker, map_app. }
  split; [apply match_marker_spec; by exists (marker_variant w)|].
  split; [apply match_marker_spec; exists open_marker; split; [constructor|done]|].
  split; [done|].
  split; [by apply Hsplit|]. split; [apply Hsplit; constructor|].
  split; [|split; [|split]].
  - rewrite Hsplit by done. unfold Insert.split.
    rewrite length_app, !length_map.
    pose proof (split_re_nonempty _ pre Hp). pose proof (split_re_nonempty _ post Hp).
    destruct (split_re Insert.match_marker pre), (split_re Insert.match_marker post);
      simpl; try done; lia.
  - intros Hpre Hpost. rewrite Hsplit by done. unfold Insert.split.
    by rewrite (split_re_no_match _ pre), (split_re_no_match _ post).
  - intros E options str Hre Hb Hlen.
    apply (insert_more_than_three E options str
             (Insert.split (pre ++ marker_variant w ++ post)
                (split_re Insert.match_marker))).
    + unfold sections_of. rewrite Hb, Hre. reflexivity.
    + rewrite Hsplit by done. by rewrite length_app.
  - intros E options M Hre HM' Hfm.
    apply insert_same_sections; try done.
    + by rewrite startsWith_marker.
    + by rewrite startsWith_marker.
    + by rewrite !Hsplit.
    + by rewrite !trailing_newlines_after_marker.
Qed.

Lemma marker_free_a_letter (c : N) : c <> LT -> marker_free [c].
Proof.
  intros Hc. apply marker_free_cons; [|apply marker_free_nil].
  destruct (Insert.match_marker [c]) as [r|] eqn:Hm; [|done].
  by apply match_marker_first in Hm.
Qed.

Lemma stop_variants_are_markers_witness :
  forallb is_space [0x20%N; TAB; LF] = true /\
  Insert.split (js "a" ++ marker_variant [0x20%N; TAB; LF] ++ js "b")
    (split_re Insert.match_marker)
  = Insert.split (js "a") (split_re Insert.match_marker)
    ++ Insert.split (js "b") (split_re Insert.match_marker) /\
  Insert.split (js "a" ++ marker_variant [0x20%N; TAB; LF] ++ js "b")
    (split_re Insert.match_marker)
  = [js "a"; js "b"] /\
  Insert.insert Reference.externals doc_with_three_markers InsertOpt.default
  = Throw OneTOCPerFile.
Proof.
  split; [reflexivity|].
  split; [|split].
  - exact (proj1 (proj2 (proj2 (proj2
      (stop_variants_are_markers [0x20%N; TAB; LF] (js "a") (js "b") eq_refl))))).
  - apply (proj1 (proj2 (proj2 (proj2 (proj2 (proj2 (proj2
      (stop_variants_are_markers [0x20%N; TAB; LF] (js "a") (js "b") eq_refl))))))));
      by apply marker_free_a_letter.
  - apply (proj1 (proj2 (proj2 (proj2 (proj2 (proj2 (proj2 (proj2
      (stop_variants_are_markers [0x20%N; TAB; LF]
         (js "<!-- toc -->a<!-- tocstop -->b") (js "c") eq_refl))))))))
      Reference.externals InsertOpt.default doc_with_three_markers);
      [reflexivity | reflexivity | vm_compute; lia].
Defined.

(** * Further properties *)

(** ** Replacements, continued *)

Section ReplacingMore.
Variable m : jsstring -> option jsstring.
Hypothesis Hm : proper_matcher m.

Lemma replace_all_forallb (p : N -> bool) rep s :
  forallb p rep = true -> forallb p s = true ->
  forallb p (replace_all m rep s) = true.
Proof using Hm.
  intros Hrep. remember (length s) as n eqn:Hn. revert s Hn.
  induction n as [n IH] using lt_wf_ind. intros [|c s] Hn Hs; [done|].
  destruct (m (c :: s)) as [r|] eqn:Hc.
  - rewrite (replace_all_match _ _ _ r) by done.
    destruct (Hm _ _ Hc) as (c' & w & Heq).
    rewrite forallb_app, Hrep. simpl.
    apply (IH (length r)); [|done|].
    + rewrite Hn, Heq. simpl. rewrite length_app. lia.
    + rewrite Heq in Hs. simpl in Hs. rewrite forallb_app in Hs.
      by apply andb_prop in Hs as [_ [_ ?]%andb_prop].
  - rewrite replace_all_nomatch by done. simpl in *.
    apply andb_prop in Hs as [-> Hs]. simpl.
    apply (IH (length s)); [|done|done]. rewrite Hn. simpl. lia.
Qed.
End ReplacingMore.

Lemma match_class_proper p : proper_matcher (match_class p).
Proof.
  intros [|c s] r; simpl; [done|]. destruct (p c); [|done].
  intros [= <-]. by exists c, [].
Qed.

(** Removing a class of code units is a filter. *)
Lemma replace_class_filter p s :
  replace_all (match_class p) [] s = List.filter (fun c => negb (p c)) s.
Proof.
  induction s as [|c s IH]; [done|].
  destruct (p c) eqn:Hc; simpl; rewrite Hc; simpl.
  - rewrite (replace_all_match _ _ _ s); [done|apply match_class_proper|].
    simpl. by rewrite Hc.
  - rewrite replace_all_nomatch; [by rewrite IH|]. simpl. by rewrite Hc.
Qed.

Lemma match_tag_proper : proper_matcher match_tag.
Proof.
  assert (Hbody : forall s r, match_tag_body s = Some r -> exists w, s = w ++ r).
  { intros s r. unfold match_tag_body.
    destruct (take_while not_gt s) as [|a t] eqn:Ht; [done|].
    destruct (drop_while not_gt s) as [|g r'] eqn:Hd; [done|].
    intros [= <-]. exists ((a :: t) ++ [g]).
    rewrite <- (take_drop_while not_gt s), Ht, Hd. by rewrite <- app_assoc. }
  intros [|c s] r; simpl; [done|].
  destruct (c =? 60)%N; [|done].
  destruct s as [|d s'].
  - intros H. by destruct (Hbody _ _ H) as [[|? ?] ?].
  - destruct (d =? 47)%N.
    + destruct (match_tag_body s') as [x|] eqn:Hx.
      * intros [= <-]. destruct (Hbody _ _ Hx) as [w ->]. by exists c, (d :: w).
      * intros H. destruct (Hbody _ _ H) as [w ->]. by exists c, w.
    + intros H. destruct (Hbody _ _ H) as [w ->]. by exists c, w.
Qed.

Lemma match_tag_first c s r : match_tag (c :: s) = Some r -> c = 0x3C%N.
Proof. simpl. destruct (N.eqb_spec c 60); [done|discriminate]. Qed.

(** ** What a default slug is made of *)

Lemma forallb_impl (p q : N -> bool) s :
  (forall c, p c = true -> q c = true) -> forallb p s = true -> forallb q s = true.
Proof.
  intros Hpq. induction s as [|c s IH]; simpl; [done|].
  intros [Hc Hs]%andb_prop. by rewrite (Hpq c Hc), IH.
Qed.

Lemma forallb_and (p q : N -> bool) s :
  forallb p s = true -> forallb q s = true ->
  forallb (fun c => p c && q c) s = true.
Proof.
  induction s as [|c s IH]; simpl; [done|].
  intros [-> Hp]%andb_prop [-> Hq]%andb_prop. by rewrite IH.
Qed.

Lemma existsb_false_forallb (q : N -> bool) s :
  existsb q s = false -> forallb (fun c => negb (q c)) s = true.
Proof.
  induction s as [|c s IH]; simpl; [done|].
  intros [-> Hs]%orb_false_elim. by rewrite IH.
Qed.

Lemma forallb_existsb_false (q : N -> bool) s :
  forallb (fun c => negb (q c)) s = true -> existsb q s = false.
Proof.
  induction s as [|c s IH]; simpl; [done|].
  intros [Hc Hs]%andb_prop. apply negb_true_iff in Hc. by rewrite Hc, IH.
Qed.

Lemma forallb_filter (p f : N -> bool) s :
  forallb p s = true -> forallb p (List.filter f s) = true.
Proof.
  induction s as [|c s IH]; simpl; [done|].
  intros [Hc Hs]%andb_prop. destruct (f c); simpl; [by rewrite Hc, IH | by apply IH].
Qed.

Lemma forallb_filter_self (f : N -> bool) s :
  forallb f (List.filter f s) = true.
Proof.
  induction s as [|c s IH]; simpl; [done|].
  destruct (f c) eqn:Hc; simpl; [by rewrite Hc, IH | done].
Qed.

Lemma filter_all (f : N -> bool) s :
  forallb f s = true -> List.filter f s = s.
Proof.
  induction s as [|c s IH]; simpl; [done|].
  intros [-> Hs]%andb_prop. by rewrite IH.
Qed.

Lemma forallb_map (p : N -> bool) (f : N -> N) s :
  forallb p (map f s) = forallb (fun c => p (f c)) s.
Proof. induction s as [|c s IH]; simpl; [done|]. by rewrite IH. Qed.

(** Comparisons of code units, decided by [lia]. *)
Ltac code_units :=
  repeat match goal with
    | H : context [(?a <=? ?b)%N] |- _ => destruct (N.leb_spec a b)
    | H : context [(?a <? ?b)%N] |- _ => destruct (N.ltb_spec a b)
    | H : context [(?a =? ?b)%N] |- _ => destruct (N.eqb_spec a b)
    | |- context [(?a <=? ?b)%N] => destruct (N.leb_spec a b)
    | |- context [(?a <? ?b)%N] => destruct (N.ltb_spec a b)
    | |- context [(?a =? ?b)%N] => destruct (N.eqb_spec a b)
    end;
  simpl in *; try done; try lia.

Lemma ascii_lower_char c :
  is_ascii c = true -> is_escape c = false ->
  is_ascii (ascii_lower c) && negb (is_escape (ascii_lower c))
  && negb (is_upper (ascii_lower c)) = true.
Proof.
  unfold is_ascii, is_escape, is_upper, ascii_lower. intros H1 H2. code_units.
Qed.

Lemma replaceDiacritics_ascii E s :
  forallb is_ascii s = true -> utils.replaceDiacritics E s = s.
Proof.
  induction s as [|c s IH]; [done|].
  simpl forallb. intros [Hc Hs]%andb_prop.
  change (utils.replaceDiacritics E (c :: s))
    with ((if ((0xC0 <=? c) && (c <=? 0x17E))%N
           then or_else (diacritics E c) [c] else [c])
          ++ utils.replaceDiacritics E s).
  rewrite (IH Hs).
  unfold is_ascii in Hc. destruct (N.ltb_spec c 128); [|done].
  destruct (N.leb_spec 192 c); [lia|]. done.
Qed.

Lemma ascii_slug_chars E str :
  forallb is_ascii (utils.getTitle str) = true ->
  existsb is_escape (utils.getTitle str) = false ->
  forallb slug_char (ascii_slug E str) = true.
Proof.
  intros Ha He. unfold ascii_slug.
  set (P1 := fun c => is_ascii c && negb (is_escape c) && negb (is_upper c)).
  assert (H1 : forallb P1 (map ascii_lower (utils.getTitle str)) = true).
  { rewrite forallb_map. apply existsb_false_forallb in He.
    pose proof (forallb_and _ _ _ Ha He) as H.
    revert H. apply forallb_impl. intros c [Hc1 Hc2%negb_true_iff]%andb_prop.
    by apply ascii_lower_char. }
  set (s1 := map ascii_lower (utils.getTitle str)) in *.
  rewrite tab_replacement_unreachable.
  assert (H2 : forallb (fun c => P1 c && negb (is_space c))
                 (replace_all match_spaces (js "-") s1) = true).
  { apply forallb_and.
    - by apply replace_all_forallb; [apply match_spaces_proper| |].
    - apply existsb_false_forallb, replace_spaces_no_space. }
  set (s2 := replace_all match_spaces (js "-") s1) in *.
  assert (H4 : forallb (fun c => P1 c && negb (is_space c))
                 (replace_all match_tag [] s2) = true).
  { by apply replace_all_forallb; [apply match_tag_proper| |]. }
  set (s4 := replace_all match_tag [] s2) in *.
  rewrite !replace_class_filter.
  assert (H6 : forallb slug_char
     (List.filter (fun c => negb (utils.is_cjk_punct c))
        (List.filter (fun c => negb (utils.is_punct c)) s4)) = true).
  { apply forallb_filter.
    pose proof (forallb_and _ _ _ (forallb_filter _ (fun c => negb (utils.is_punct c)) _ H4)
                  (forallb_filter_self (fun c => negb (utils.is_punct c)) s4)) as H.
    revert H. apply forallb_impl. intros c. unfold P1, slug_char.
    destruct (is_ascii c), (is_escape c), (is_upper c), (is_space c),
      (utils.is_punct c); done. }
  rewrite replaceDiacritics_ascii; [done|].
  revert H6. apply forallb_impl. intros c. unfold slug_char.
  by destruct (is_ascii c).
Qed.

Lemma forallb_suffix (p : N -> bool) (a b : jsstring) :
  forallb p (a ++ b) = true -> forallb p b = true.
Proof. rewrite forallb_app. by intros [_ ?]%andb_prop. Qed.

(** A replacement whose pattern starts with a code unit the string does
    not hold leaves the string as it is. *)
Lemma replace_all_absent m rep (bad : N -> bool) s :
  m [] = None ->
  (forall c r, bad c = false -> m (c :: r) = None) ->
  forallb (fun c => negb (bad c)) s = true ->
  replace_all m rep s = s.
Proof.
  intros Hnil Hbad Hs. apply replace_from_no_match. intros a [|c b] ->; [done|].
  apply forallb_suffix in Hs. simpl in Hs.
  apply andb_prop in Hs as [Hc%negb_true_iff _]. by apply Hbad.
Qed.

Lemma slug_char_fixed E s :
  forallb slug_char s = true -> ascii_slug E s = s /\ utils.getTitle s = s.
Proof.
  intros Hs.
  assert (Hg : utils.getTitle s = s).
  { destruct s as [|c r]; [done|]. simpl in *.
    apply andb_prop in Hs as [Hc _]. unfold slug_char in Hc.
    destruct (N.eqb_spec c 91) as [->|]; [by vm_compute in Hc | done]. }
  split; [|done]. unfold ascii_slug. rewrite Hg.
  assert (H1 : map ascii_lower s = s).
  { clear Hg. induction s as [|c r IH]; [done|]. simpl in *.
    apply andb_prop in Hs as [Hc Hr]. rewrite (IH Hr). f_equal.
    unfold slug_char, is_upper in Hc. unfold ascii_lower.
    destruct ((65 <=? c) && (c <=? 90))%N; [|done].
    rewrite !andb_false_r in Hc. done. }
  rewrite H1, tab_replacement_unreachable.
  rewrite (replace_all_absent match_spaces _ is_space); [|done| |].
  2:{ intros c r Hc. simpl. by rewrite Hc. }
  2:{ revert Hs. apply forallb_impl. intros c. unfold slug_char.
      destruct (is_space c); [by rewrite !andb_false_r | done]. }
  assert (Hp : forallb (fun c => negb (utils.is_punct c)) s = true).
  { revert Hs. apply forallb_impl. intros c. unfold slug_char.
    destruct (utils.is_punct c); [by rewrite !andb_false_r | done]. }
  rewrite (replace_all_absent match_tag _ utils.is_punct); [|done| |done].
  2:{ intros c r Hc. simpl. destruct (N.eqb_spec c 60) as [->|]; [by vm_compute in Hc|done]. }
  rewrite !replace_class_filter.
  rewrite (filter_all _ s Hp).
  assert (Ha : forallb is_ascii s = true).
  { revert Hs. apply forallb_impl. intros c. unfold slug_char.
    by destruct (is_ascii c). }
  rewrite filter_all.
  - by apply replaceDiacritics_ascii.
  - pose proof (forallb_and _ _ _ Ha
        (forallb_impl slug_char (fun c => negb (is_space c)) s
           ltac:(intros c; unfold slug_char; destruct (is_space c);
                 [by rewrite !andb_false_r | done]) Hs)) as H.
    revert H. apply forallb_impl. intros c [Hc1 Hc2]%andb_prop.
    unfold utils.is_cjk_punct. apply negb_true_iff.
    apply not_true_is_false. intros [x [Hx Hcx]]%existsb_exists.
    apply N.eqb_eq in Hcx. subst x.
    unfold is_ascii in Hc1. apply N.ltb_lt in Hc1.
    simpl in Hx.
    repeat (destruct Hx as [Hx|Hx]; [subst c; (lia || by vm_compute in Hc2)|]).
    done.
Qed.

(** ** Extraction, continued *)

Section ExtractionMore.
Variable E : Externals.
Variable options : TOCOptions.

Lemma fold_not_heading depth l st :
  Forall not_heading l ->
  fold_left (fun st childToken =>
               MarkedAdapter.processHeadingToken E options childToken depth st) l st
  = st.
Proof.
  intros Hl. revert st. induction Hl as [|t l Ht _ IH]; intros st; simpl; [done|].
  rewrite <- (IH st) at 2. f_equal.
  destruct t; simpl; try done; by destruct (depth >? _)%Z.
Qed.

Lemma extractHeadings_app l1 l2 st :
  MarkedAdapter.extractHeadings E options (l1 ++ l2) st
  = MarkedAdapter.extractHeadings E options l2
      (MarkedAdapter.extractHeadings E options l1 st).
Proof. unfold MarkedAdapter.extractHeadings. apply fold_left_app. Qed.

Lemma extractHeadings_document toks st :
  (0 <= MarkedAdapter.maxdepth_or_6 options)%Z ->
  Forall inline_children toks ->
  map (fun h => (HeadingToken.content h, HeadingToken.lvl h))
    (MarkedAdapter.headings (MarkedAdapter.extractHeadings E options toks st))
  = map (fun h => (HeadingToken.content h, HeadingToken.lvl h))
      (MarkedAdapter.headings st)
    ++ document_headings toks.
Proof.
  intros Hmax Htoks. revert st.
  induction Htoks as [|t toks Ht _ IH]; intros st.
  - simpl. by rewrite app_nil_r.
  - change (t :: toks) with ([t] ++ toks).
    rewrite extractHeadings_app, IH.
    assert (Hd : document_headings ([t] ++ toks)
                 = document_headings [t] ++ document_headings toks).
    { unfold document_headings. simpl. by rewrite app_nil_r. }
    rewrite Hd, app_assoc. f_equal.
    destruct t as [hd text children| | | | |]; simpl;
      try by rewrite app_nil_r.
    destruct (0 >? MarkedAdapter.maxdepth_or_6 options)%Z eqn:Hgt; [lia|].
    destruct children as [l|]; simpl in *.
    + rewrite fold_not_heading by done. simpl. by rewrite map_app.
    + by rewrite map_app.
Qed.
End ExtractionMore.

Lemma json_of_parse E options toks :
  json (MarkedAdapter.parse_tokens E options toks)
  = match Opt.filter options with
    | Some f =>
        List.filter (fun h => f (HeadingToken.content h) h (truncated E options toks))
          (truncated E options toks)
    | None => truncated E options toks
    end.
Proof.
  unfold MarkedAdapter.parse_tokens. simpl.
  by rewrite generateJSONOutput_headings.
Qed.

Lemma filter_sublist {A} (p : A -> bool) (l : list A) :
  List.filter p l `sublist_of` l.
Proof.
  induction l as [|x l IH]; simpl; [done|].
  destruct (p x); [by apply sublist_skip | by apply sublist_cons].
Qed.

Lemma json_sublist E options toks :
  json (MarkedAdapter.parse_tokens E options toks)
    `sublist_of`
    MarkedAdapter.headings
      (MarkedAdapter.extractHeadings E options toks MarkedAdapter.init).
Proof.
  rewrite json_of_parse.
  assert (Ht : truncated E options toks `sublist_of`
      MarkedAdapter.headings
        (MarkedAdapter.extractHeadings E options toks MarkedAdapter.init)).
  { unfold truncated. destruct (Opt.firsth1 options); [done|apply sublist_drop]. }
  destruct (Opt.filter options); [|done].
  etrans; [apply filter_sublist | done].
Qed.

(** X10: the records of [json] are extracted records, in their order, and
    each of them passed the filter. *)
Theorem json_kept_in_order E options toks :
  json (MarkedAdapter.parse_tokens E options toks)
    `sublist_of`
    MarkedAdapter.headings
      (MarkedAdapter.extractHeadings E options toks MarkedAdapter.init) /\
  forall f h,
    Opt.filter options = Some f ->
    h ∈ json (MarkedAdapter.parse_tokens E options toks) ->
    f (HeadingToken.content h) h (truncated E options toks) = true.
Proof.
  split; [apply json_sublist|]. rewrite json_of_parse.
  intros f h ->. by intros [_ ?]%list_elem_of_In%filter_In.
Qed.

Lemma fold_min_le ls l x :
  (fold_left Z.min ls l <= l)%Z /\
  (x ∈ ls -> (fold_left Z.min ls l <= x)%Z) /\
  (fold_left Z.min ls l = l \/ fold_left Z.min ls l ∈ ls).
Proof.
  revert l. induction ls as [|y ls IH]; intros l; simpl.
  - split; [lia|]. split; [by intros ?%elem_of_nil|by left].
  - destruct (IH (Z.min l y)) as (H1 & H2 & H3). split; [lia|]. split.
    + intros [->|Hx]%elem_of_cons; [lia|by apply H2].
    + destruct H3 as [H3|H3].
      * rewrite H3. destruct (Z.min_spec l y) as [[_ ->]|[_ ->]]; [by left|].
        right. by left.
      * right. by right.
Qed.

(** X11: [highest] is the least level of the records of [json]: [0] when
    there is none, else the level of one of them and at most the level of
    each. *)
Theorem highest_is_least_level E options toks :
  let r := MarkedAdapter.parse_tokens E options toks in
  (json r = [] -> highest r = 0%Z) /\
  (forall h, h ∈ json r -> (highest r <= HeadingToken.lvl h)%Z) /\
  (json r <> [] -> exists h, h ∈ json r /\ HeadingToken.lvl h = highest r).
Proof.
  intros r. unfold r, MarkedAdapter.parse_tokens. simpl.
  rewrite generateJSONOutput_headings.
  generalize (MarkedAdapter.processHeadings options
                (MarkedAdapter.extractHeadings E options toks MarkedAdapter.init)).
  intros st. unfold MarkedAdapter.getHighestLevel.
  destruct (MarkedAdapter.headings st) as [|h0 hs]; simpl.
  - split; [done|]. split; [by intros h ?%elem_of_nil|done].
  - split; [done|]. split.
    + intros h [->|Hh]%elem_of_cons.
      * apply (fold_min_le _ _ 0%Z).
      * apply fold_min_le. apply list_elem_of_fmap. by exists h.
    + intros _.
      destruct (fold_min_le (map HeadingToken.lvl hs) (HeadingToken.lvl h0) 0%Z)
        as (_ & _ & [H|H]).
      * exists h0. split; [by left|done].
      * apply list_elem_of_fmap in H as (h & Hh & Hin).
        exists h. split; [by right|done].
Qed.

(** X12: a document without a heading gives no record, the level [0],
    and a table that is the [append] option or empty. *)
Theorem parse_without_heading E options toks :
  Forall not_heading toks ->
  MarkedAdapter.parse_tokens E options toks
  = {| content := or_else (Opt.append options) [];
       json := [];
       highest := 0;
       tokens := toks |}.
Proof.
  intros Htoks. unfold MarkedAdapter.parse_tokens.
  assert (Hx : MarkedAdapter.extractHeadings E options toks MarkedAdapter.init
               = MarkedAdapter.init).
  { unfold MarkedAdapter.extractHeadings. generalize MarkedAdapter.init.
    induction Htoks as [|t toks Ht _ IH]; intros st; simpl; [done|].
    destruct t; try done; apply IH. }
  rewrite Hx.
  assert (Hp : MarkedAdapter.processHeadings options MarkedAdapter.init
               = MarkedAdapter.init).
  { unfold MarkedAdapter.processHeadings. simpl.
    by destruct (Opt.firsth1 options), (Opt.filter options). }
  rewrite Hp. f_equal. unfold MarkedAdapter.generateTOCContent. simpl.
  by destruct (Opt.append options) as [[|c a]|].
Qed.

(** ** Link text *)

Lemma match_blanks_proper : proper_matcher match_blanks.
Proof.
  intros [|c s] r; simpl; [done|].
  destruct (is_blank c); [|done]. intros [= <-].
  exists c, (take_while is_blank s). by rewrite take_drop_while.
Qed.

Lemma drop_while_stops p s :
  match drop_while p s with c :: _ => p c = false | [] => True end.
Proof.
  induction s as [|c s IH]; simpl; [done|].
  destruct (p c) eqn:Hc; [done|]. simpl. done.
Qed.

(** Collapsing blanks leaves no tab and no two spaces in a row. *)
Lemma collapse_blanks s :
  let out := replace_all match_blanks (js " ") s in
  existsb utils.is_tab out = false /\
  single_spaced out = true /\
  (match s with c :: _ => is_blank c = false | [] => True end ->
   match out with c :: _ => c <> 0x20%N | [] => True end).
Proof.
  remember (length s) as n eqn:Hn. revert s Hn.
  induction n as [n IH] using lt_wf_ind. intros [|c s] Hn; [by repeat split|].
  destruct (match_blanks (c :: s)) as [r|] eqn:Hm.
  - cbv zeta. rewrite (replace_all_match _ _ _ r) by (done || apply match_blanks_proper).
    destruct (match_blanks_proper _ _ Hm) as (c' & w & Heq).
    assert (Hc : is_blank c = true).
    { simpl in Hm. by destruct (is_blank c). }
    assert (Hr : r = drop_while is_blank s).
    { simpl in Hm. rewrite Hc in Hm. by injection Hm. }
    destruct (IH (length r)) with (s := r) as (H1 & H2 & H3); [|done|].
    { rewrite Hn, Heq. simpl. rewrite length_app. lia. }
    specialize (H3 ltac:(rewrite Hr; apply drop_while_stops)).
    split; [done|]. split; [|by rewrite Hc].
    change (js " " ++ ?x) with (32%N :: x).
    destruct (replace_all match_blanks (js " ") r) as [|d out]; [done|].
    cbn [single_spaced] in *. rewrite H2, andb_true_r.
    destruct (N.eqb_spec d 32); done.
  - cbv zeta. rewrite replace_all_nomatch by done.
    assert (Hc : is_blank c = false).
    { simpl in Hm. by destruct (is_blank c). }
    destruct (IH (length s)) with (s := s) as (H1 & H2 & _); [|done|].
    { rewrite Hn. simpl. lia. }
    assert (Hc32 : c <> 32%N) by (by intros ->).
    split; [|split; [|done]].
    + cbn [existsb]. rewrite H1, orb_false_r. unfold utils.is_tab.
      destruct (N.eqb_spec c 9) as [->|]; done.
    + destruct (replace_all match_blanks (js " ") s); [done|].
      cbn [single_spaced] in *. rewrite H2, andb_true_r.
      by destruct (N.eqb_spec c 32).
Qed.

Lemma single_spaced_app a b :
  single_spaced (a ++ b) = true -> single_spaced a = true /\ single_spaced b = true.
Proof.
  induction a as [|x a IH]; [done|].
  destruct a as [|y a].
  - simpl. destruct b; [done|]. by intros [_ ?]%andb_prop.
  - intros [H1 H2]%andb_prop. destruct (IH H2) as [Ha Hb].
    split; [|done]. simpl in *. by rewrite H1, Ha.
Qed.

(** X6: the link text of the default [titleize] has no white space at its
    ends, no tab, and no two spaces in a row. *)
Theorem titleize_normalises options str :
  (forall f, Opt.titleize options <> HookFn f) ->
  let t := MarkedAdapter.titleize options str in
  trim t = t /\ existsb utils.is_tab t = false /\ single_spaced t = true.
Proof.
  intros Hf t. unfold t, MarkedAdapter.titleize.
  destruct (Opt.titleize options) as [| |f]; [| |by destruct (Hf f)];
    (set (x := if Opt.stripHeadingTags options then _ else _);
     destruct (collapse_blanks x) as (H1 & H2 & _);
     destruct (trim_decompose (replace_all match_blanks (js " ") x))
       as (w1 & w2 & Hy & _);
     split; [apply trim_trim|];
     rewrite Hy in H1, H2; split;
     [ rewrite !existsb_app in H1;
       by apply orb_false_elim in H1 as [_ [? _]%orb_false_elim]
     | by apply single_spaced_app in H2 as [_ [? _]%single_spaced_app] ]).
Qed.

(** ** Links and list items of [utils] *)

(** X3: [getTitle] gives back the text of a link [createMarkdownLink]
    built, when the text is not empty and holds no closing bracket. *)
Theorem getTitle_of_link text href :
  text <> [] ->
  forallb utils.not_rbracket text = true ->
  utils.getTitle (createMarkdownLink text href) = text.
Proof.
  intros Hne Htext. unfold createMarkdownLink, utils.getTitle.
  change (js "[" ++ ?x) with (0x5B%N :: x). cbv iota beta. simpl N.eqb. cbv iota.
  change (js "](" ++ ?x) with (0x5D%N :: 0x28%N :: x).
  rewrite take_while_app_stop, drop_while_app_stop by done.
  by destruct text.
Qed.

(** X4: for a string that starts with an opening bracket, a label that
    is not empty and holds no closing bracket, and a closing bracket,
    [getTitle] returns the label; for every other string it returns the
    string itself. *)
Theorem getTitle_cases str :
  (forall label rest,
     str = 0x5B%N :: label ++ 0x5D%N :: rest ->
     label <> [] ->
     forallb utils.not_rbracket label = true ->
     utils.getTitle str = label) /\
  ((forall label rest,
      label <> [] -> forallb utils.not_rbracket label = true ->
      str <> 0x5B%N :: label ++ 0x5D%N :: rest) ->
   utils.getTitle str = str).
Proof.
  split.
  - intros label rest -> Hne Hl. unfold utils.getTitle. simpl N.eqb. cbv iota.
    rewrite take_while_app_stop, drop_while_app_stop by done.
    by destruct label.
  - intros Hno. unfold utils.getTitle. destruct str as [|c r]; [done|].
    destruct (N.eqb_spec c 91) as [->|]; [|done].
    destruct (take_while utils.not_rbracket r) as [|a t] eqn:Ht; [done|].
    destruct (drop_while utils.not_rbracket r) as [|d rest] eqn:Hd; [done|].
    exfalso. apply (Hno (a :: t) rest); [done| |].
    + rewrite <- Ht. apply take_while_all.
    + f_equal. rewrite <- (take_drop_while utils.not_rbracket r), Ht, Hd.
      f_equal. f_equal. pose proof (drop_while_stops utils.not_rbracket r) as H.
      rewrite Hd in H. unfold utils.not_rbracket in H.
      apply negb_false_iff, N.eqb_eq in H. done.
Qed.

Lemma getTitle_cases_witness :
  utils.getTitle (js "[a b](#c)") = js "a b" /\
  utils.getTitle (js "a [b]") = js "a [b]".
Proof.
  split.
  - apply (proj1 (getTitle_cases (js "[a b](#c)")) (js "a b") (js "(#c)"));
      [reflexivity | discriminate | reflexivity].
  - apply (proj2 (getTitle_cases (js "a [b]"))).
    intros label rest _ _. discriminate.
Defined.

(** X5: [createListItem] throws for a negative level; otherwise the item
    is the indentation, a glyph, a space and the content, and from the
    last glyph of an array on the glyph is that last one (a hyphen when
    the array is empty or the glyph is the empty string). *)
Theorem createListItem_glyphs opts level content l :
  Opt.bullets opts = Some (OfArray l) ->
  ((level < 0)%Z -> createListItem opts level content = None) /\
  ((0 <= level)%Z -> (Z.of_nat (length l) - 1 <= level)%Z ->
   createListItem opts level content
   = Some (repeat (or_else (Opt.indent opts) (js "  ")) (Z.to_nat level)
           ++ or_else (last l) (js "-") ++ js " " ++ content)).
Proof.
  intros Hb. unfold createListItem. rewrite Hb. cbn [truthy_glyphs from_option].
  unfold id. split.
  - intros Hneg. by apply Z.ltb_lt in Hneg as ->.
  - intros Hpos Hlast. destruct (Z.ltb_spec level 0); [lia|].
    assert (Hg : MarkedAdapter.glyph_at (OfArray l)
                   (Z.min level (MarkedAdapter.glyph_count (OfArray l) - 1))
                 = last l).
    { unfold MarkedAdapter.glyph_at, MarkedAdapter.glyph_count.
      rewrite Z.min_r by lia.
      destruct l as [|g l _] using rev_ind; [done|].
      rewrite last_snoc, length_app. simpl.
      destruct (Z.ltb_spec (Z.of_nat (length l + 1) - 1) 0); [lia|].
      replace (Z.to_nat (Z.of_nat (length l + 1) - 1)) with (length l) by lia.
      by rewrite list_lookup_middle. }
    by rewrite Hg.
Qed.

(** ** The marker pattern and the sections, continued *)

Local Abbreviation mm := Insert.match_marker.

(** X13: the default pattern matches at the head of a string exactly when
    the string starts with a marker, and the match is that marker. *)
Theorem marker_pattern_matches s r :
  mm s = Some r <->
  s = js "<!-- toc -->" ++ r \/
  exists w, forallb is_space w = true /\ s = js "<!-- toc" ++ w ++ js "stop -->" ++ r.
Proof.
  rewrite match_marker_spec. split.
  - intros (M & [|w Hw] & ->); [by left|]. right. exists w. split; [done|].
    unfold marker_variant. by rewrite <- !app_assoc.
  - intros [->|(w & Hw & ->)].
    + exists open_marker. split; [constructor|done].
    + exists (marker_variant w). split; [by constructor|].
      unfold marker_variant. by rewrite <- !app_assoc.
Qed.

Lemma Segments_split s segs : Segments s segs -> split_re mm s = segs.
Proof.
  pose proof match_marker_proper as Hp.
  induction 1 as [s Hs|seg M rest segs Hseg HM _ IH].
  - by apply split_re_no_match.
  - rewrite split_re_app_marker by done.
    by rewrite (split_re_no_match _ seg), IH.
Qed.

Lemma Segments_marker_free s segs : Segments s segs -> Forall marker_free segs.
Proof. induction 1; by repeat constructor. Qed.

(** X14: splitting on the default pattern loses nothing but the markers:
    the segments are those of the one way to write the string as
    segments without a match separated by markers. *)
Theorem split_is_segments s segs :
  split_re mm s = segs <-> Segments s segs.
Proof.
  split; [intros <-; apply split_re_Segments | apply Segments_split].
Qed.

(** X15: with the default pattern [split] returns at least one section,
    and each section is trimmed and holds no marker. *)
Theorem sections_are_trimmed str :
  let secs := Insert.split str (split_re mm) in
  secs <> [] /\
  Forall (fun s => trim s = s) secs /\
  Forall marker_free secs.
Proof.
  unfold Insert.split, Insert.trim. split; [|split].
  - pose proof (split_re_nonempty _ str match_marker_proper).
    by destruct (split_re mm str).
  - apply Forall_forall. intros s (x & -> & _)%list_elem_of_fmap. apply trim_trim.
  - pose proof (Segments_marker_free _ _ (split_re_Segments str)) as H.
    induction H; constructor; [by apply marker_free_trim|done].
Qed.

(** ** [insert], continued *)

Lemma insert_two E options str pre post r :
  InsertOpt.regex options = None ->
  InsertOpt.open options = None ->
  InsertOpt.close options = None ->
  startsWith (js "---") str = false ->
  Insert.split str (split_re mm) = [pre; post] ->
  toc E post (InsertOpt.base options) = Ok r ->
  Insert.insert E str options
  = Ok (spliced pre (content r) post (Insert.trailing_newlines str)).
Proof.
  intros Hregex Hopen Hclose Hfm Hsplit Hr. unfold Insert.insert.
  rewrite Hregex, Hopen, Hclose, Hfm. cbn [from_option mbind result_bind fst].
  rewrite Hsplit. cbn [length Nat.ltb Nat.leb Nat.eqb last from_option].
  change (id post) with post. rewrite Hr.
  cbn [mbind result_bind]. unfold spliced, Insert.splice.
  cbn [take drop app join length Nat.eqb Nat.add mbind result_bind].
  f_equal. rewrite <- !app_assoc. cbn [app]. by rewrite <- !app_assoc.
Qed.

Lemma split_sections_free str secs :
  Insert.split str (split_re mm) = secs ->
  Forall (fun s => trim s = s /\ marker_free s) secs.
Proof.
  intros <-. unfold Insert.split, Insert.trim. apply Forall_and. split.
  - apply Forall_forall. intros s (x & -> & _)%list_elem_of_fmap. apply trim_trim.
  - pose proof (Segments_marker_free _ _ (split_re_Segments str)) as H.
    induction H; constructor; [by apply marker_free_trim|done].
Qed.

(** What the spliced document splits into, and the line feeds it ends
    with. *)
Lemma spliced_sections pre c post nl :
  trim pre = pre -> marker_free pre ->
  trim post = post -> marker_free post ->
  split_re mm c = [c] ->
  forallb is_space nl = true ->
  Insert.split (spliced pre c post nl) (split_re mm) = [pre; trim c; post].
Proof.
  intros Hpre Hfpre Hpost Hfpost Hc Hnl. unfold spliced.
  rewrite insert_once_resplits; try done; [|by apply split_re_single].
  by rewrite Hpre, Hpost.
Qed.

(** X16: the document [insert] returns for three sections splits again
    into the text before the table, the new table and the text after it,
    and ends with the line feeds of the input when text follows the
    table. *)
Theorem insert_keeps_text E options str pre old post c :
  InsertOpt.regex options = None ->
  InsertOpt.open options = None ->
  InsertOpt.close options = None ->
  startsWith (js "---") str = false ->
  Insert.split str (split_re mm) = [pre; old; post] ->
  supplied_or_rendered E post options = Ok c ->
  split_re mm c = [c] ->
  exists out,
    Insert.insert E str options = Ok out /\
    Insert.split out (split_re mm) = [pre; trim c; post] /\
    (post <> [] -> Insert.trailing_newlines out = Insert.trailing_newlines str).
Proof.
  intros Hregex Hopen Hclose Hfm Hsplit Hc Hfree.
  eexists. split; [by apply (insert_three E options Hregex Hopen Hclose str pre old post c)|].
  apply split_sections_free in Hsplit.
  inversion Hsplit as [|? ? [Hp1 Hp2] Hrest]; subst.
  inversion Hrest as [|? ? _ Hrest']; subst.
  inversion Hrest' as [|? ? [Hq1 Hq2] _]; subst.
  split.
  - apply spliced_sections; try done. apply trailing_newlines_spaces.
  - intros Hpost. cbn [join]. rewrite !app_assoc, <- (app_assoc _ post).
    rewrite <- Hq1. apply trailing_newlines_kept. by rewrite Hq1.
Qed.

(** X18: a first [insert], into a document that has the opening marker
    only, gives a document on which a second [insert] changes nothing. *)
Theorem insert_first_then_again E options str pre post r :
  InsertOpt.regex options = None ->
  InsertOpt.open options = None ->
  InsertOpt.close options = None ->
  InsertOpt.toc options = None ->
  startsWith (js "---") str = false ->
  Insert.split str (split_re mm) = [pre; post] ->
  startsWith (js "---") pre = false ->
  post <> [] ->
  toc E post (InsertOpt.base options) = Ok r ->
  split_re mm (content r) = [content r] ->
  exists out,
    Insert.insert E str options = Ok out /\
    Insert.insert E out options = Ok out.
Proof.
  intros Hregex Hopen Hclose Htoc Hfm Hsplit Hpre Hpost Hr Hfree.
  eexists. split; [by apply (insert_two E options str pre post r)|].
  apply split_sections_free in Hsplit.
  inversion Hsplit as [|? ? [Hp1 Hp2] Hrest]; subst.
  inversion Hrest as [|? ? [Hq1 Hq2] _]; subst.
  assert (Hc : supplied_or_rendered E post options = Ok (content r)).
  { unfold supplied_or_rendered. by rewrite Htoc, Hr. }
  rewrite (insert_three E options Hregex Hopen Hclose _ pre (trim (content r)) post
             (content r)); [| |by apply spliced_sections; try apply trailing_newlines_spaces|done].
  - unfold spliced. do 2 f_equal. cbn [join].
    rewrite !app_assoc, <- (app_assoc _ post).
    rewrite <- Hq1. apply trailing_newlines_kept. by rewrite Hq1.
  - unfold spliced. cbn [join]. rewrite <- !app_assoc.
    change ([LF; LF] ++ ?x) with (LF :: ([LF] ++ x)).
    rewrite startsWith_before; [done|].
    vm_compute. intros H. repeat (apply elem_of_cons in H as [H|H]; [done|]).
    by apply elem_of_nil in H.
Qed.

(** X19: a table of contents supplied in the options is inserted as it is
    when the body has three sections, without a call of the tokenizer,
    and is ignored when the body has two. *)
Theorem supplied_toc_for_three_sections E options str :
  (forall pre old post t,
     InsertOpt.regex options = None ->
     InsertOpt.open options = None ->
     InsertOpt.close options = None ->
     startsWith (js "---") str = false ->
     Insert.split str (split_re mm) = [pre; old; post] ->
     InsertOpt.toc options = Some t -> t <> [] ->
     Insert.insert E str options
     = Ok (spliced pre t post (Insert.trailing_newlines str))) /\
  (forall pre post,
     sections_of E str options = Ok [pre; post] ->
     Insert.insert E str options = Insert.insert E str (without_toc options)).
Proof.
  split.
  - intros pre old post t Hregex Hopen Hclose Hfm Hsplit Ht Hne.
    apply (insert_three E options Hregex Hopen Hclose str pre old post t); try done.
    unfold supplied_or_rendered. rewrite Ht. by destruct t.
  - intros pre post Hs. unfold sections_of, body_of in Hs.
    unfold Insert.insert, without_toc. cbn [InsertOpt.base InsertOpt.regex
      InsertOpt.open InsertOpt.close InsertOpt.toc].
    destruct (startsWith (js "---") str).
    + destruct (matter E str) as [[b data]|e]; [|done].
      cbn [mbind result_bind fst] in *. injection Hs as Hs. rewrite Hs. done.
    + cbn [mbind result_bind] in *. injection Hs as Hs. rewrite Hs. done.
Qed.

(** X20: on a document with front matter [insert] is [insert] on the
    content gray-matter returns, followed by [matter.stringify] with the
    data, provided the content does not itself start with [---] and ends
    with the same line feeds as the document (they are read off the
    document, before the front matter is taken away). *)
Theorem insert_with_front_matter E options str body data :
  startsWith (js "---") str = true ->
  matter E str = Ok (body, data) ->
  startsWith (js "---") body = false ->
  Insert.trailing_newlines body = Insert.trailing_newlines str ->
  Insert.insert E str options
  = (out ← Insert.insert E body options; Ok (matter_stringify E out data)).
Proof.
  intros Hfm Hm Hbody Hnl. unfold Insert.insert.
  rewrite Hfm, Hm, Hbody, Hnl. cbn [mbind result_bind fst snd].
  repeat (cbn [mbind result_bind];
          match goal with
          | |- context [if ?b then _ else _] => destruct b
          | |- context [toc E ?a ?b] => destruct (toc E a b)
          end); done.
Qed.

(** ** The [seen] object, continued *)

Section SeenMore.
Variable E : Externals.
Variable options : TOCOptions.

Lemma proto_key_inherited : MarkedAdapter.proto_key ∈ MarkedAdapter.inherited_keys.
Proof. unfold MarkedAdapter.inherited_keys. set_solver. Qed.

Lemma track_own_counts seen text :
  seen !! MarkedAdapter.proto_key = None ->
  (forall k v, seen !! k = Some v ->
     v = Number 0 \/ (v = NaN /\ k ∈ MarkedAdapter.inherited_keys)) ->
  let seen' :=
    if MarkedAdapter.falsy (MarkedAdapter.get seen text)
    then MarkedAdapter.set seen text (Number 0)
    else MarkedAdapter.set seen text
           (MarkedAdapter.incremented (MarkedAdapter.get seen text)) in
  seen' !! MarkedAdapter.proto_key = None /\
  (forall k v, seen' !! k = Some v ->
     v = Number 0 \/ (v = NaN /\ k ∈ MarkedAdapter.inherited_keys)) /\
  (text ∉ MarkedAdapter.inherited_keys -> MarkedAdapter.get seen' text = Number 0).
Proof.
  intros Hproto Hvals. cbv zeta.
  assert (Hset : forall v,
    v = Number 0 \/ (v = NaN /\ text ∈ MarkedAdapter.inherited_keys) ->
    MarkedAdapter.set seen text v !! MarkedAdapter.proto_key = None /\
    (forall k v', MarkedAdapter.set seen text v !! k = Some v' ->
       v' = Number 0 \/ (v' = NaN /\ k ∈ MarkedAdapter.inherited_keys)) /\
    (text ∉ MarkedAdapter.inherited_keys ->
     MarkedAdapter.get (MarkedAdapter.set seen text v) text = v)).
  { intros v Hv. unfold MarkedAdapter.set, MarkedAdapter.get.
    case_bool_decide as Hk.
    - split; [done|]. split; [done|]. intros Hn. destruct Hn. subst text.
      apply proto_key_inherited.
    - split; [by rewrite lookup_insert_ne|]. split.
      + intros k v'. rewrite lookup_insert.
        case_decide; [intros [= <-]; by subst k | apply Hvals].
      + intros _. by rewrite lookup_insert_eq. }
  assert (Hg : MarkedAdapter.get seen text = Number 0 \/
               MarkedAdapter.get seen text = NaN \/
               (MarkedAdapter.get seen text = Inherited /\
                text ∈ MarkedAdapter.inherited_keys) \/
               MarkedAdapter.get seen text = Undefined).
  { unfold MarkedAdapter.get. destruct (seen !! text) as [v|] eqn:Hv.
    - destruct (Hvals _ _ Hv) as [-> | [-> _]]; tauto.
    - case_bool_decide; tauto. }
  destruct Hg as [-> | [-> | [[-> Hin] | ->]]]; simpl.
  - apply Hset. by left.
  - apply Hset. by left.
  - destruct (Hset NaN) as (H1 & H2 & H3); [by right|].
    split; [done|]. split; [done|]. by intros [].
  - apply Hset. by left.
Qed.

Lemma processHeadingToken_own_counts token :
  forall depth st, own_counts st ->
    own_counts (MarkedAdapter.processHeadingToken E options token depth st).
Proof.
  induction token as [hd text children IH| | | | |] using Token_children_ind;
    intros d st Hst; simpl; destruct (d >? _)%Z; try done.
  set (st' := MarkedAdapter.mkState _ _).
  assert (Hst' : own_counts st').
  { destruct Hst as (Hp & Hv & Hh).
    destruct (track_own_counts (MarkedAdapter.seen st) text Hp Hv) as (Hp' & Hv' & Hg).
    split; [done|]. split; [done|].
    apply Forall_app. split; [done|]. by repeat constructor. }
  destruct children as [l|]; [|done].
  by apply (fold_children_invariant E options own_counts).
Qed.

Lemma extractHeadings_own_counts toks :
  own_counts (MarkedAdapter.extractHeadings E options toks MarkedAdapter.init).
Proof.
  unfold MarkedAdapter.extractHeadings.
  assert (Hi : own_counts MarkedAdapter.init).
  { split; [done|]. split; [|constructor]. intros k v Hk.
    simpl in Hk. by rewrite lookup_empty in Hk. }
  revert Hi. generalize MarkedAdapter.init.
  induction toks as [|t toks IH]; intros st Hst; simpl; [done|].
  apply IH. destruct t; try done. by apply processHeadingToken_own_counts.
Qed.
End SeenMore.

(** X9: in a document whose headings all differ in content, every record
    whose content is not the name of a property of [Object.prototype] has
    [seen = 0]. *)
Theorem distinct_headings_unnumbered E options toks h :
  NoDup (map HeadingToken.content
           (MarkedAdapter.headings
              (MarkedAdapter.extractHeadings E options toks MarkedAdapter.init))) ->
  h ∈ json (MarkedAdapter.parse_tokens E options toks) ->
  HeadingToken.content h ∉ MarkedAdapter.inherited_keys ->
  HeadingToken.seen h = Number 0.
Proof.
  intros _ Hin.
  destruct (extractHeadings_own_counts E options toks) as (_ & _ & Hh).
  rewrite Forall_forall in Hh. apply Hh.
  by apply (sublist_subseteq _ _ (json_sublist E options toks)).
Qed.

(** ** Slugs, extraction and [insert] as a whole, with their examples *)

(** X1: with the options [{}], the slug of a text of ASCII without escape
    sequences is made of ASCII code units that are not white space, not
    upper case, not an escape and not in the class of punctuation the
    code removes. *)
Theorem default_slug_chars E str :
  conforming E ->
  forallb is_ascii (utils.getTitle str) = true ->
  existsb is_escape (utils.getTitle str) = false ->
  forallb slug_char (utils.slugify E str Opt.default) = true.
Proof.
  intros HE Ha He. rewrite slugify_ascii by done. by apply ascii_slug_chars.
Qed.

Lemma default_slug_chars_witness :
  conforming Reference.externals /\
  forallb slug_char (utils.slugify Reference.externals (js "Hello World!") Opt.default)
  = true.
Proof.
  split; [exact reference_conforming|].
  exact (default_slug_chars Reference.externals (js "Hello World!")
           reference_conforming eq_refl eq_refl).
Defined.

(** X2: with the options [{}], the slug of a text of ASCII without escape
    sequences is its own slug. *)
Theorem slugify_idempotent E str :
  conforming E ->
  forallb is_ascii (utils.getTitle str) = true ->
  existsb is_escape (utils.getTitle str) = false ->
  utils.slugify E (utils.slugify E str Opt.default) Opt.default
  = utils.slugify E str Opt.default.
Proof.
  intros HE Ha He. rewrite (slugify_ascii E HE str) by done.
  pose proof (ascii_slug_chars E str Ha He) as Hs.
  destruct (slug_char_fixed E _ Hs) as [Hfix Hg].
  rewrite slugify_ascii; [done|done| |]; rewrite Hg.
  - revert Hs. apply forallb_impl. intros c. unfold slug_char. by destruct (is_ascii c).
  - apply forallb_existsb_false. revert Hs. apply forallb_impl. intros c.
    unfold slug_char. destruct (is_escape c); [by rewrite !andb_false_r | done].
Qed.

Lemma slugify_idempotent_witness :
  conforming Reference.externals /\
  utils.slugify Reference.externals
    (utils.slugify Reference.externals (js "C++ & Go") Opt.default) Opt.default
  = utils.slugify Reference.externals (js "C++ & Go") Opt.default.
Proof.
  split; [exact reference_conforming|].
  exact (slugify_idempotent Reference.externals (js "C++ & Go")
           reference_conforming eq_refl eq_refl).
Defined.

Lemma getTitle_of_link_witness :
  js "docs" <> [] /\
  utils.getTitle (createMarkdownLink (js "docs") (js "#docs")) = js "docs".
Proof.
  split; [discriminate|].
  apply (getTitle_of_link (js "docs") (js "#docs")); [discriminate | reflexivity].
Defined.

Lemma createListItem_glyphs_witness :
  createListItem two_glyphs 3 (js "x") = Some (js "      * x").
Proof.
  apply (proj2 (createListItem_glyphs two_glyphs 3 (js "x") [js "-"; js "*"] eq_refl));
    simpl; lia.
Defined.

Lemma titleize_normalises_witness :
  trim (MarkedAdapter.titleize Opt.default (js " a   b "))
  = MarkedAdapter.titleize Opt.default (js " a   b ").
Proof.
  apply (titleize_normalises Opt.default (js " a   b ")). intros f. discriminate.
Defined.

(** X8: extraction yields the headings of the document in their order,
    each with its text and its level, when the headings hold inline
    tokens only and all lie within [maxdepth]. *)
Theorem extraction_in_document_order E options toks :
  (0 <= MarkedAdapter.maxdepth_or_6 options)%Z ->
  Forall inline_children toks ->
  Forall (fun td => (td.2 <= MarkedAdapter.maxdepth_or_6 options)%Z)
    (document_headings toks) ->
  map (fun h => (HeadingToken.content h, HeadingToken.lvl h))
    (MarkedAdapter.headings
       (MarkedAdapter.extractHeadings E options toks MarkedAdapter.init))
  = document_headings toks.
Proof.
  intros Hmax Htoks _. by rewrite extractHeadings_document.
Qed.

Lemma extraction_in_document_order_witness :
  map (fun h => (HeadingToken.content h, HeadingToken.lvl h))
    (MarkedAdapter.headings
       (MarkedAdapter.extractHeadings Reference.externals Opt.default
          title_and_section MarkedAdapter.init))
  = [(js "T", 1%Z); (js "A", 2%Z)].
Proof.
  apply (extraction_in_document_order Reference.externals Opt.default title_and_section).
  - vm_compute. discriminate.
  - repeat constructor.
  - repeat constructor; vm_compute; discriminate.
Defined.

Lemma distinct_headings_unnumbered_witness :
  HeadingToken.seen (HeadingToken.mk (js "A") (js "a") 2 1 (Number 0)) = Number 0.
Proof.
  apply (distinct_headings_unnumbered Reference.externals Opt.default title_and_section).
  - apply (bool_decide_unpack _). vm_compute. reflexivity.
  - assert (Hj : json (MarkedAdapter.parse_tokens Reference.externals Opt.default
                         title_and_section)
                 = [HeadingToken.mk (js "T") (js "t") 1 0 (Number 0);
                    HeadingToken.mk (js "A") (js "a") 2 1 (Number 0)])
      by (vm_compute; reflexivity).
    rewrite Hj. right. left.
  - apply (bool_decide_unpack _). vm_compute. reflexivity.
Defined.

Lemma json_kept_in_order_witness :
  HeadingToken.mk (js "A") (js "a") 2 1 (Number 0)
    ∈ json (MarkedAdapter.parse_tokens Reference.externals only_level_two
              title_and_section) /\
  (HeadingToken.lvl (HeadingToken.mk (js "A") (js "a") 2 1 (Number 0)) =? 2)%Z = true.
Proof.
  assert (Hin : HeadingToken.mk (js "A") (js "a") 2 1 (Number 0)
            ∈ json (MarkedAdapter.parse_tokens Reference.externals only_level_two
                      title_and_section)).
  { assert (Hj : json (MarkedAdapter.parse_tokens Reference.externals only_level_two
                         title_and_section)
                 = [HeadingToken.mk (js "A") (js "a") 2 1 (Number 0)])
      by (vm_compute; reflexivity).
    rewrite Hj. left. }
  split; [exact Hin|].
  exact (proj2 (json_kept_in_order Reference.externals only_level_two title_and_section)
           _ _ eq_refl Hin).
Defined.

Lemma highest_is_least_level_witness :
  exists h,
    h ∈ json (MarkedAdapter.parse_tokens Reference.externals Opt.default title_and_section)
    /\ HeadingToken.lvl h
       = highest (MarkedAdapter.parse_tokens Reference.externals Opt.default
                    title_and_section).
Proof.
  apply (proj2 (proj2 (highest_is_least_level Reference.externals Opt.default
                         title_and_section))).
  vm_compute. discriminate.
Defined.

Lemma parse_without_heading_witness :
  json (MarkedAdapter.parse_tokens Reference.externals Opt.default [Text (js "x")]) = [].
Proof.
  rewrite (parse_without_heading Reference.externals Opt.default [Text (js "x")]);
    [reflexivity|]. by repeat constructor.
Defined.

Lemma insert_keeps_text_witness :
  exists out,
    Insert.insert Reference.externals doc_with_toc InsertOpt.default = Ok out /\
    Insert.split out (split_re mm)
    = [doc_with_toc_pre; trim doc_with_toc_table; doc_with_toc_post] /\
    (doc_with_toc_post <> [] ->
     Insert.trailing_newlines out = Insert.trailing_newlines doc_with_toc).
Proof.
  apply (insert_keeps_text Reference.externals InsertOpt.default doc_with_toc
           doc_with_toc_pre doc_with_toc_old doc_with_toc_post doc_with_toc_table);
    reflexivity.
Defined.

Lemma insert_first_then_again_witness :
  exists out,
    Insert.insert Reference.externals doc_with_opening InsertOpt.default = Ok out /\
    Insert.insert Reference.externals out InsertOpt.default = Ok out.
Proof.
  assert (Hr : exists r, toc Reference.externals doc_with_toc_post Opt.default = Ok r
                 /\ content r = doc_with_toc_table).
  { eexists. split; [reflexivity|]. vm_compute. reflexivity. }
  destruct Hr as (r & Hr & Hc).
  apply (insert_first_then_again Reference.externals InsertOpt.default doc_with_opening
           doc_with_toc_pre doc_with_toc_post r); try reflexivity; try done.
  rewrite Hc. reflexivity.
Defined.

Lemma supplied_toc_for_three_sections_witness :
  Insert.insert Reference.externals doc_with_toc with_supplied_toc
  = Ok (spliced doc_with_toc_pre (js "- [A](#a)") doc_with_toc_post [LF]).
Proof.
  apply (proj1 (supplied_toc_for_three_sections Reference.externals with_supplied_toc
                  doc_with_toc) doc_with_toc_pre doc_with_toc_old doc_with_toc_post
           (js "- [A](#a)")); try reflexivity. discriminate.
Defined.

Lemma insert_with_front_matter_witness :
  Insert.insert Reference.externals doc_with_matter InsertOpt.default
  = (out ← Insert.insert Reference.externals doc_with_matter_content InsertOpt.default;
     Ok (matter_stringify Reference.externals out [js "title: x"])).
Proof.
  apply (insert_with_front_matter Reference.externals InsertOpt.default doc_with_matter
           doc_with_matter_content [js "title: x"]); reflexivity.
Defined.

(** ** The text of a token *)

Lemma concat_text_concat (f : Token -> jsstring) l :
  MarkedAdapter.concat_text f l = concat (map f l).
Proof.
  unfold MarkedAdapter.concat_text.
  assert (H : forall acc, fold_left (fun text child => text ++ f child) l acc
                          = acc ++ concat (map f l)).
  { induction l as [|t l IH]; intros acc; simpl; [by rewrite app_nil_r|].
    by rewrite IH, <- app_assoc. }
  apply (H []).
Qed.

(** X7: images contribute no text: the text collected from the children
    of a token without a text of its own is the text collected from the
    children that are not images. *)
Theorem images_contribute_no_text l href type :
  let others := List.filter (fun t => negb (is_image t)) l in
  MarkedAdapter.getTokenText (Generic None (Some l))
  = MarkedAdapter.getTokenText (Generic None (Some others)) /\
  MarkedAdapter.getTokenText (Link [] (Some l) href)
  = MarkedAdapter.getTokenText (Link [] (Some others) href) /\
  MarkedAdapter.getTokenText (Formatted type [] (Some l))
  = MarkedAdapter.getTokenText (Formatted type [] (Some others)).
Proof.
  intros others.
  assert (H : MarkedAdapter.concat_text MarkedAdapter.getTokenText l
              = MarkedAdapter.concat_text MarkedAdapter.getTokenText others).
  { rewrite !concat_text_concat. unfold others.
    induction l as [|t l IH]; [done|].
    destruct t; simpl; by rewrite ?IH. }
  by repeat split.
Qed.

(** X21: [insert] passes on the errors of gray-matter and of the
    tokenizer as they are.  When the document starts with [---] and
    gray-matter throws, [insert] throws that error, whatever the body and
    the options.  With the default marker pattern, when the body has two
    sections, or three sections and no table of contents is supplied, and
    the tokenizer throws on the last section, [insert] throws that
    error. *)
Theorem insert_errors E options str e :
  (startsWith (js "---") str = true -> matter E str = Throw e ->
   Insert.insert E str options = Throw e) /\
  (forall secs lst,
     InsertOpt.regex options = None ->
     sections_of E str options = Ok secs ->
     last secs = Some lst ->
     length secs = 2 \/
       (length secs = 3 /\ truthy (default [] (InsertOpt.toc options)) = false) ->
     lexer E lst = Throw e ->
     Insert.insert E str options = Throw e).
Proof.
  split.
  - intros Hfm Hm. unfold Insert.insert. rewrite Hfm, Hm. reflexivity.
  - intros secs lst Hre Hs Hlast Hlen Hlex.
    unfold sections_of, body_of in Hs. unfold Insert.insert.
    assert (Htoc : toc E lst (InsertOpt.base options) = Throw e).
    { unfold toc, MarkedAdapter.parse. by rewrite Hlex. }
    destruct (startsWith (js "---") str).
    + destruct (matter E str) as [[b data]|e']; cbn [mbind result_bind fst] in *; [|done].
      injection Hs as Hs. rewrite Hs.
      destruct secs as [|s0 [|s1 [|s2 [|s3 l]]]]; simpl in Hlen; try (exfalso; lia).
      * simpl in *. injection Hlast as ->. by rewrite Htoc.
      * destruct Hlen as [|[_ Ht]]; [done|]. simpl in *. injection Hlast as ->.
        rewrite Ht. by rewrite Htoc.
    + cbn [mbind result_bind fst] in *.
      injection Hs as Hs. rewrite Hs.
      destruct secs as [|s0 [|s1 [|s2 [|s3 l]]]]; simpl in Hlen; try (exfalso; lia).
      * simpl in *. injection Hlast as ->. by rewrite Htoc.
      * destruct Hlen as [|[_ Ht]]; [done|]. simpl in *. injection Hlast as ->.
        rewrite Ht. by rewrite Htoc.
Qed.

Lemma insert_errors_witness :
  Insert.insert Reference.externals doc_with_open_matter InsertOpt.default
  = Throw External /\
  sections_of failing_lexer doc_with_matter_content InsertOpt.default
  = Ok [[]; js "## A"] /\
  Insert.insert failing_lexer doc_with_matter_content InsertOpt.default
  = Throw External.
Proof.
  split; [|split; [reflexivity|]].
  - apply (proj1 (insert_errors Reference.externals InsertOpt.default
                    doc_with_open_matter External)); reflexivity.
  - apply (proj2 (insert_errors failing_lexer InsertOpt.default
                    doc_with_matter_content External) [[]; js "## A"] (js "## A"));
      [reflexivity | reflexivity | reflexivity | by left | reflexivity].
Defined.
